(** * Animator2D: the pose evaluation pipeline of [utils.ts]

    A shallow embedding of the driver evaluator, the rotation clamp, the
    forward-kinematics evaluator, the CCD inverse-kinematics solver, the
    keyframe interpolator and the animation sampler, followed by the
    properties established about them.

    Conventions of the embedding.
    - A JavaScript [number] is a real number ([R]); comparisons are the
      decidable comparisons of [R] turned into booleans.
    - Bone objects live in a store ([heap]) and are named by references;
      an array of bones is a list of references.  Property writes such as
      [updatedBones[index].rotation = v] update the store, so that aliasing
      between the argument array and the array a function works on is
      visible.  Arrays themselves are never updated in place by this code
      and are plain lists.
    - Loops that the source writes with [while], and the recursion of
      [processBone], take a fuel argument and return [None] when it runs
      out; the theorems give a fuel that suffices. *)

From Stdlib Require Import Reals Lra Lia List String Bool Arith ZArith.
From Stdlib Require Import Permutation Sorted.
Import ListNotations.

Open Scope R_scope.

(** ** Numbers *)

Definition Rltb (a b : R) : bool := if Rlt_dec a b then true else false.
Definition Rleb (a b : R) : bool := if Rle_dec a b then true else false.
Definition Rgtb (a b : R) : bool := Rltb b a.
Definition Rgeb (a b : R) : bool := Rleb b a.

(** Decide every comparison of reals that occurs in the goal. *)
Ltac rcmp :=
  unfold Rgtb, Rgeb, Rltb, Rleb in *;
  repeat match goal with
         | |- context [Rlt_dec ?a ?b] => destruct (Rlt_dec a b); try lra
         | |- context [Rle_dec ?a ?b] => destruct (Rle_dec a b); try lra
         end;
  try reflexivity; try lra.

Definition degToRad (deg : R) : R := (deg * PI) / 180.
Definition radToDeg (rad : R) : R := (rad * 180) / PI.

(** ** Data model ([types.ts]) *)

Record Vector2 := mkVector2 { vx : R; vy : R }.

Inductive ConstraintType := LIMIT_ROTATION | IK_POLE | COPY_TRANSFORM.

Definition isLimitRotation (t : ConstraintType) : bool :=
  match t with LIMIT_ROTATION => true | _ => false end.

Record Constraint := mkConstraint {
  ctype : ConstraintType;
  cmin : option R;
  cmax : option R;
  influence : R
}.

(** The three animatable properties, ['rotation' | 'x' | 'y']. *)
Inductive BoneProp := PRotation | PX | PY.

Record Driver := mkDriver {
  driverProperty : BoneProp;
  sourceBoneId : string;
  sourceProperty : BoneProp;
  factor : R;
  offset : R
}.

(** [locked] is optional in the source and only ever read as [!b.locked]:
    an absent flag is [false] here.  [constraints] and [drivers] are
    required arrays; the source's guards [if (bone.constraints)] and
    [if (!targetBone.drivers)] behave on an absent array as on an empty
    one. *)
Record Bone := mkBone {
  id : string;
  parentId : option string;
  length : R;
  rotation : R;
  x : R;
  y : R;
  locked : bool;
  visible : bool;
  constraints : list Constraint;
  drivers : list Driver
}.

Record DerivedBone := mkDerived {
  base : Bone;
  worldStart : Vector2;
  worldEnd : Vector2;
  worldRotation : R
}.

Definition setRotation (v : R) (b : Bone) : Bone :=
  mkBone (id b) (parentId b) (length b) v (x b) (y b)
         (locked b) (visible b) (constraints b) (drivers b).

Definition setX (v : R) (b : Bone) : Bone :=
  mkBone (id b) (parentId b) (length b) (rotation b) v (y b)
         (locked b) (visible b) (constraints b) (drivers b).

Definition setY (v : R) (b : Bone) : Bone :=
  mkBone (id b) (parentId b) (length b) (rotation b) (x b) v
         (locked b) (visible b) (constraints b) (drivers b).

Definition readProp (p : BoneProp) (b : Bone) : R :=
  match p with PRotation => rotation b | PX => x b | PY => y b end.

Definition writeProp (p : BoneProp) (v : R) (b : Bone) : Bone :=
  match p with
  | PRotation => setRotation v b
  | PX => setX v b
  | PY => setY v b
  end.

(** ** The object store *)

Definition ref := nat.

Record heap := mkHeap { cells : ref -> Bone; next : ref }.

Definition hwrite (h : heap) (r : ref) (b : Bone) : heap :=
  mkHeap (fun r' => if Nat.eqb r' r then b else cells h r') (next h).

(** A fresh object, as created by an object literal [{...b, ...}]. *)
Definition halloc (h : heap) (b : Bone) : ref * heap :=
  (next h,
   mkHeap (fun r' => if Nat.eqb r' (next h) then b else cells h r')
          (S (next h))).

(** [bones.find(b => b.id === i)] on an array of references. *)
Definition findRef (h : heap) (bones : list ref) (i : string) : option ref :=
  find (fun r => String.eqb (id (cells h r)) i) bones.

(** ** Driver evaluator *)

(** The body of the inner [forEach]: one driver of the bone at [target]. *)
Definition applyDriver (bones : list ref) (target : ref)
    (h : heap) (driver : Driver) : heap :=
  match findRef h bones (sourceBoneId driver) with
  | None => h
  | Some s =>
      let inputVal := readProp (sourceProperty driver) (cells h s) in
      let outputVal := inputVal * factor driver + offset driver in
      hwrite h target (writeProp (driverProperty driver) outputVal
                                 (cells h target))
  end.

(** The body of the outer [forEach]: all drivers of one array element. *)
Definition driveBone (bones : list ref) (h : heap) (target : ref) : heap :=
  fold_left (applyDriver bones target) (drivers (cells h target)) h.

Definition driverPass (bones : list ref) (h : heap) : heap :=
  fold_left (driveBone bones) bones h.

(** [updatedBones = [...bones]] copies the array, not the objects: the
    result holds the same references and the two passes write through
    them into the store. *)
Definition evaluateDrivers (h : heap) (bones : list ref)
    : heap * list ref :=
  let updatedBones := bones in
  (driverPass updatedBones (driverPass updatedBones h), updatedBones).

(** ** Rotation clamp *)

(** [while (v > 180) v -= 360]. *)
Fixpoint whileAbove (fuel : nat) (v : R) : option R :=
  match fuel with
  | O => None
  | S fuel' => if Rgtb v 180 then whileAbove fuel' (v - 360) else Some v
  end.

(** [while (v < -180) v += 360]. *)
Fixpoint whileBelow (fuel : nat) (v : R) : option R :=
  match fuel with
  | O => None
  | S fuel' => if Rltb v (-180) then whileBelow fuel' (v + 360) else Some v
  end.

(** The two normalisation loops of [constrainRotation] in sequence. *)
Definition normalizeFuel (fuel : nat) (val : R) : option R :=
  match whileAbove fuel val with
  | None => None
  | Some v => whileBelow fuel v
  end.

(** A number of iterations that is enough for either loop on [val]. *)
Definition loopBound (val : R) : nat := S (Z.to_nat (up (Rabs val / 360))).

(** The normalised value; [normalize_terminates] below shows that the
    fuel never runs out, so the last branch is not taken. *)
Definition normalize (val : R) : R :=
  match normalizeFuel (loopBound val) val with
  | Some v => v
  | None => val
  end.

(** The comparisons against the optional bounds. *)
Definition clampTo (v : R) (min max : option R) : R :=
  match min with
  | Some lo => if Rltb v lo then lo else
                 match max with
                 | Some hi => if Rgtb v hi then hi else v
                 | None => v
                 end
  | None => match max with
            | Some hi => if Rgtb v hi then hi else v
            | None => v
            end
  end.

Definition constrainRotation (val : R) (min max : option R) : R :=
  clampTo (normalize val) min max.

(** ** Forward-kinematics evaluator *)

(** [bone.constraints.find(c => c.type === 'LIMIT_ROTATION')]. *)
Definition findLimit (b : Bone) : option Constraint :=
  find (fun c => isLimitRotation (ctype c)) (constraints b).

(** The local rotation after the constraint, [rot] in [processBone]. *)
Definition effectiveRotation (b : Bone) : R :=
  match findLimit b with
  | Some limit => constrainRotation (rotation b) (cmin limit) (cmax limit)
  | None => rotation b
  end.

(** The object literal built by [processBone] for [bone] under [parent]. *)
Definition deriveBone (bone : Bone) (parent : option DerivedBone)
    : DerivedBone :=
  let rot := effectiveRotation bone in
  let startX := match parent with
                | Some p => vx (worldEnd p) | None => x bone end in
  let startY := match parent with
                | Some p => vy (worldEnd p) | None => y bone end in
  let parentRot := match parent with
                   | Some p => worldRotation p | None => 0 end in
  let worldRot := parentRot + rot in
  let angleRad := degToRad worldRot in
  let endX := startX + cos angleRad * length bone in
  let endY := startY + sin angleRad * length bone in
  mkDerived (setRotation rot bone)
            (mkVector2 startX startY) (mkVector2 endX endY) worldRot.

(** [b.parentId === bone.id] and [b.parentId === null]. *)
Definition isChildOf (bone b : Bone) : bool :=
  match parentId b with
  | Some p => String.eqb p (id bone)
  | None => false
  end.

Definition isRoot (b : Bone) : bool :=
  match parentId b with Some _ => false | None => true end.

(** [l.forEach(f)] where every call of [f] pushes onto the shared
    [result]: the pushes of the calls, in order; [None] as soon as one
    call does not return. *)
Fixpoint forEachPush {A B : Type} (f : A -> option (list B)) (l : list A)
    : option (list B) :=
  match l with
  | [] => Some []
  | a :: l' =>
      match f a with
      | None => None
      | Some r1 =>
          match forEachPush f l' with
          | None => None
          | Some r2 => Some (r1 ++ r2)
          end
      end
  end.

(** [processBone]; the result is what the call pushes onto [result].
    [drivenBones] is the contents of the driven array, which the
    traversal only reads. *)
Fixpoint processBone (fuel : nat) (drivenBones : list Bone)
    (bone : Bone) (parent : option DerivedBone) : option (list DerivedBone) :=
  match fuel with
  | O => None
  | S fuel' =>
      let derivedBone := deriveBone bone parent in
      match forEachPush
              (fun child => processBone fuel' drivenBones child
                                        (Some derivedBone))
              (filter (isChildOf bone) drivenBones) with
      | None => None
      | Some pushed => Some (derivedBone :: pushed)
      end
  end.

(** The traversal from the roots. *)
Definition traverse (fuel : nat) (drivenBones : list Bone)
    : option (list DerivedBone) :=
  forEachPush (fun root => processBone fuel drivenBones root None)
              (filter isRoot drivenBones).

(** [calculateFK]: the store after the driver evaluation, and the list of
    derived bones. *)
Definition calculateFK (fuel : nat) (h : heap) (bones : list ref)
    : option (heap * list DerivedBone) :=
  let (h', drivenBones) := evaluateDrivers h bones in
  match traverse fuel (map (cells h') drivenBones) with
  | None => None
  | Some result => Some (h', result)
  end.

(** [derived.find(b => b.id === i)]. *)
Definition findDerived (derived : list DerivedBone) (i : string)
    : option DerivedBone :=
  find (fun d => String.eqb (id (base d)) i) derived.

(** ** CCD inverse-kinematics solver *)

(** A string is truthy unless it is empty. *)
Definition truthy (s : string) : bool := negb (String.eqb s EmptyString).

(** The chain loop: [depth] counts down from 4. *)
Fixpoint buildChain (h : heap) (bones : list ref) (left : nat)
    (currentId : option string) : list string :=
  match left with
  | O => []
  | S left' =>
      match currentId with
      | None => []
      | Some c =>
          if truthy c then
            c :: buildChain h bones left'
                   (match findRef h bones c with
                    | Some r => parentId (cells h r)
                    | None => None
                    end)
          else []
      end
  end.

(** The rotation written for a chain bone. *)
Definition ikRotation (b : Bone) (angleDiff : R) : R :=
  let newRot := rotation b + angleDiff in
  match findLimit b with
  | Some limit => constrainRotation newRot (cmin limit) (cmax limit)
  | None => newRot
  end.

(** [newBones.map(b => b.id === boneId && !b.locked ? {...b, rotation} : b)]:
    a fresh object for every bone that is rewritten. *)
Fixpoint mapRotate (h : heap) (bones : list ref) (boneId : string)
    (angleDiff : R) : heap * list ref :=
  match bones with
  | [] => (h, [])
  | r :: rs =>
      let b := cells h r in
      if String.eqb (id b) boneId && negb (locked b) then
        let (r', h1) := halloc h (setRotation (ikRotation b angleDiff) b) in
        let (h2, rs') := mapRotate h1 rs boneId angleDiff in
        (h2, r' :: rs')
      else
        let (h2, rs') := mapRotate h rs boneId angleDiff in
        (h2, r :: rs')
  end.

Definition iterations : nat := 10.

Section IK.

(** [Math.atan2], a function of the host. *)
Variable atan2 : R -> R -> R.

Definition angleBetween (effector currentDerived : DerivedBone)
    (target : Vector2) : R :=
  let effectorPos := worldEnd effector in
  let originPos := worldStart currentDerived in
  let toEffector := mkVector2 (vx effectorPos - vx originPos)
                              (vy effectorPos - vy originPos) in
  let toTarget := mkVector2 (vx target - vx originPos)
                            (vy target - vy originPos) in
  let angEffector := atan2 (vy toEffector) (vx toEffector) in
  let angTarget := atan2 (vy toTarget) (vx toTarget) in
  let angleDiff := radToDeg (angTarget - angEffector) in
  let angleDiff := if Rgtb angleDiff 180 then angleDiff - 360
                   else angleDiff in
  if Rltb angleDiff (-180) then angleDiff + 360 else angleDiff.

(** One round of the inner loop, for one [boneId] of the chain. *)
Definition ikStep (fuel : nat) (effectorId : string) (target : Vector2)
    (st : heap * list ref) (boneId : string) : option (heap * list ref) :=
  let (h, newBones) := st in
  match calculateFK fuel h newBones with
  | None => None
  | Some (h1, derived) =>
      match findDerived derived effectorId,
            findDerived derived boneId with
      | Some effector, Some currentDerived =>
          Some (mapRotate h1 newBones boneId
                          (angleBetween effector currentDerived target))
      | _, _ => Some (h1, newBones)
      end
  end.

Fixpoint ikSteps (fuel : nat) (effectorId : string) (target : Vector2)
    (st : heap * list ref) (ids : list string)
    : option (heap * list ref) :=
  match ids with
  | [] => Some st
  | boneId :: ids' =>
      match ikStep fuel effectorId target st boneId with
      | None => None
      | Some st' => ikSteps fuel effectorId target st' ids'
      end
  end.

(** [solveIK]: the final store and the returned array. *)
Definition solveIK (fuel : nat) (h : heap) (bones : list ref)
    (effectorId : string) (target : Vector2) : option (heap * list ref) :=
  let chain := buildChain h bones 4 (Some effectorId) in
  let newBones := bones in
  ikSteps fuel effectorId target (h, newBones)
          (List.concat (repeat chain iterations)).

End IK.

(** ** Easing *)

Inductive EasingType := Linear | EaseIn | EaseOut | EaseInOut | Bezier.

Definition easeLinear (t : R) : R := t.
Definition easeIn (t : R) : R := t * t.
Definition easeOut (t : R) : R := t * (2 - t).
Definition easeInOut (t : R) : R :=
  if Rltb t (1 / 2) then 2 * t * t else -1 + (4 - 2 * t) * t.

Definition getEasing (type : EasingType) (t : R) : R :=
  match type with
  | EaseIn => easeIn t
  | EaseOut => easeOut t
  | EaseInOut => easeInOut t
  | _ => easeLinear t
  end.

(** ** Keyframe interpolator *)

Record Keyframe := mkKeyframe {
  time : R;
  value : R;
  easing : EasingType
}.

Inductive TrackProp := TRotation | TX | TY | TVariant.

Record Track := mkTrack {
  boneId : string;
  property : TrackProp;
  keyframes : list Keyframe
}.

(** [[...keyframes].sort((a, b) => a.time - b.time)]: the sort of an array
    is stable, and a stable sort has one result, which insertion from the
    right computes. *)
Fixpoint insertKey (k : Keyframe) (l : list Keyframe) : list Keyframe :=
  match l with
  | [] => [k]
  | k' :: l' =>
      if Rleb (time k) (time k') then k :: k' :: l' else k' :: insertKey k l'
  end.

Fixpoint sortKeys (l : list Keyframe) : list Keyframe :=
  match l with
  | [] => []
  | k :: l' => insertKey k (sortKeys l')
  end.

(** The value between [k1] and [k2]. *)
Definition interpolate (k1 k2 : Keyframe) (frame : R) : R :=
  let t := (frame - time k1) / (time k2 - time k1) in
  let t := getEasing (easing k1) t in
  value k1 + (value k2 - value k1) * t.

(** The [for] loop over adjacent pairs; [fallback] is the value returned
    after the loop. *)
Fixpoint scanKeys (keys : list Keyframe) (frame : R) (fallback : R) : R :=
  match keys with
  | k1 :: ((k2 :: _) as rest) =>
      if Rgeb frame (time k1) && Rltb frame (time k2)
      then interpolate k1 k2 frame
      else scanKeys rest frame fallback
  | _ => fallback
  end.

Definition getInterpolatedValue (track : Track) (frame : R) : option R :=
  match sortKeys (keyframes track) with
  | [] => None
  | (k0 :: _) as keys =>
      let kl := last keys k0 in
      if Rleb frame (time k0) then Some (value k0)
      else if Rgeb frame (time kl) then Some (value kl)
      else Some (scanKeys keys frame (value k0))
  end.

(** ** Animation sampler *)

Record AnimationClip := mkClip {
  duration : R;
  fps : R;
  tracks : list Track
}.

Definition sameTrackProp (p q : TrackProp) : bool :=
  match p, q with
  | TRotation, TRotation | TX, TX | TY, TY | TVariant, TVariant => true
  | _, _ => false
  end.

(** [clip.tracks.find(t => t.boneId === bone.id && t.property === p)]. *)
Definition findTrack (clip : AnimationClip) (bone : Bone) (p : TrackProp)
    : option Track :=
  find (fun t => String.eqb (boneId t) (id bone) && sameTrackProp (property t) p)
       (tracks clip).

(** One property of the clone: overwritten when a track exists and has a
    value at [frame]. *)
Definition sampleProp (clip : AnimationClip) (frame : R) (bone : Bone)
    (p : TrackProp) (set : R -> Bone -> Bone) (newBone : Bone) : Bone :=
  match findTrack clip bone p with
  | Some track =>
      match getInterpolatedValue track frame with
      | Some val => set val newBone
      | None => newBone
      end
  | None => newBone
  end.

(** The clone built for one bone by the first [map]. *)
Definition sampleBone (clip : AnimationClip) (frame : R) (bone : Bone)
    : Bone :=
  let newBone := bone in
  let newBone := sampleProp clip frame bone TRotation setRotation newBone in
  let newBone := sampleProp clip frame bone TX setX newBone in
  sampleProp clip frame bone TY setY newBone.

(** The clones are fresh objects: they get the next free references, in
    array order. *)
Fixpoint allocAll (h : heap) (bs : list Bone) : heap * list ref :=
  match bs with
  | [] => (h, [])
  | b :: bs' =>
      let (r, h1) := halloc h b in
      let (h2, rs) := allocAll h1 bs' in
      (h2, r :: rs)
  end.

(** The object of the second [map] for the bone at [r]. *)
Definition reconcile (h : heap) (derived : list DerivedBone) (r : ref)
    : Bone :=
  let b := cells h r in
  match findDerived derived (id b) with
  | Some d =>
      setY (y (base d)) (setX (x (base d)) (setRotation (rotation (base d)) b))
  | None => b
  end.

(** [applyAnimation]: the contents of the returned [bones] array, whose
    objects are all created by the call, and the returned [sprites]. *)
Definition applyAnimation {Sprite : Type} (fuel : nat) (h : heap)
    (bones : list ref) (sprites : list Sprite) (clip : AnimationClip)
    (frame : R) : option (list Bone * list Sprite) :=
  let (h1, newBones) :=
    allocAll h (map (fun r => sampleBone clip frame (cells h r)) bones) in
  match calculateFK fuel h1 newBones with
  | None => None
  | Some (h2, derived) =>
      let finalBones := map (reconcile h2 derived) newBones in
      let newSprites := map (fun sprite => sprite) sprites in
      Some (finalBones, newSprites)
  end.

(** ** Point rotation *)

Definition rotatePoint (point center : Vector2) (angleRad : R) : Vector2 :=
  let cos := cos angleRad in
  let sin := sin angleRad in
  let dx := vx point - vx center in
  let dy := vy point - vy center in
  mkVector2 (vx center + dx * cos - dy * sin)
            (vy center + dx * sin + dy * cos).

(** ** Motion path *)

(** The [for] loop of [calculateMotionPath] from the frame [f] on, with
    [step = 2].  The bones that [applyAnimation] returns are objects it has
    created; they are given references of their own before the
    forward-kinematics evaluation works on them. *)
Fixpoint motionPathFrom {Sprite : Type} (loopFuel fuel : nat) (h : heap)
    (bones : list ref) (sprites : list Sprite) (clip : AnimationClip)
    (targetBoneId : string) (f : R) : option (list Vector2) :=
  match loopFuel with
  | O => None
  | S loopFuel' =>
      if Rleb f (duration clip) then
        match applyAnimation fuel h bones sprites clip f with
        | None => None
        | Some (stateBones, _) =>
            let (h1, stateRefs) := allocAll h stateBones in
            match calculateFK fuel h1 stateRefs with
            | None => None
            | Some (_, derived) =>
                match motionPathFrom loopFuel' fuel h bones sprites clip
                                     targetBoneId (f + 2) with
                | None => None
                | Some points =>
                    match findDerived derived targetBoneId with
                    | Some target => Some (worldStart target :: points)
                    | None => Some points
                    end
                end
            end
        end
      else Some []
  end.

Definition calculateMotionPath {Sprite : Type} (loopFuel fuel : nat)
    (h : heap) (bones : list ref) (sprites : list Sprite)
    (clip : AnimationClip) (targetBoneId : string) : option (list Vector2) :=
  motionPathFrom loopFuel fuel h bones sprites clip targetBoneId 0.

(** ** Keyframe insertion ([App.tsx]) *)

Definition Reqb (a b : R) : bool := if Req_dec_T a b then true else false.

(** The two statements that [addT] in [addKeyframe] and [addKey] in
    [updateBone] run on the keyframes of the track:
    [keyframes.filter(k => k.time !== currentFrame)] and then
    [push({ time: currentFrame, value, easing: 'linear' })]. *)
Definition putKeyframe (keyframes : list Keyframe) (currentFrame val : R)
    : list Keyframe :=
  filter (fun k => negb (Reqb (time k) currentFrame)) keyframes
  ++ [mkKeyframe currentFrame val Linear].

(** Does the track belong to the bone [i] and the property [p]? *)
Definition isTrackOf (i : string) (p : TrackProp) (t : Track) : bool :=
  String.eqb (boneId t) i && sameTrackProp (property t) p.

(** The keyframes of the first track of [i] and [p] are replaced. *)
Fixpoint putInTrack (tracks : list Track) (i : string) (p : TrackProp)
    (currentFrame val : R) : list Track :=
  match tracks with
  | [] => []
  | t :: ts =>
      if isTrackOf i p t
      then mkTrack (boneId t) (property t)
                   (putKeyframe (keyframes t) currentFrame val) :: ts
      else t :: putInTrack ts i p currentFrame val
  end.

(** [addT]/[addKey] on the copy [newTracks] of the clip's tracks: the track
    is looked up, created empty and pushed when it is missing, and given
    the new keyframe. *)
Definition addKey (tracks : list Track) (i : string) (p : TrackProp)
    (currentFrame val : R) : list Track :=
  match find (isTrackOf i p) tracks with
  | Some _ => putInTrack tracks i p currentFrame val
  | None => tracks ++ [mkTrack i p (putKeyframe [] currentFrame val)]
  end.

(** The body of [addKeyframe] for the selected bone, once it is found:
    the rotation is keyed, and x and y too when the bone is a root; the
    clip gets the new tracks. *)
Definition addKeyframe (clip : AnimationClip) (bone : Bone)
    (currentFrame : R) : AnimationClip :=
  let newTracks := tracks clip in
  let newTracks :=
    addKey newTracks (id bone) TRotation currentFrame (rotation bone) in
  let newTracks :=
    if isRoot bone
    then addKey (addKey newTracks (id bone) TX currentFrame (x bone))
                (id bone) TY currentFrame (y bone)
    else newTracks in
  mkClip (duration clip) (fps clip) newTracks.

(** ** Example inputs *)

(** The store holding the objects [b0 :: bs] at references 0, 1, ... *)
Definition heapOf (b0 : Bone) (bs : list Bone) : heap :=
  mkHeap (fun r => nth r (b0 :: bs) b0) (S (List.length bs)).

Definition chainRoot : Bone :=
  mkBone "root"%string None 10 0 0 0 false true [] [].

Definition chainChild : Bone :=
  mkBone "child"%string (Some "root"%string) 5 90 0 0 false true [] [].

Definition limit_10_130 : Constraint :=
  mkConstraint LIMIT_ROTATION (Some (-10)) (Some 130) 1.

Definition limitedBone : Bone :=
  mkBone "arm"%string None 10 200 0 0 false true [limit_10_130] [].

(** Two bones that differ at most in rotation, x and y. *)
Definition sameShape (a b : Bone) : Prop :=
  id a = id b /\ parentId a = parentId b /\ length a = length b /\
  locked a = locked b /\ visible a = visible b /\
  constraints a = constraints b /\ drivers a = drivers b.

(** Inputs *)
Definition halfDriver : Driver :=
  mkDriver PRotation "a"%string PRotation (1 / 2) 10.

Definition sourceBone : Bone :=
  mkBone "a"%string None 10 20 0 0 false true [] [].

Definition drivenBone : Bone :=
  mkBone "b"%string None 10 0 0 0 false true [] [halfDriver].

Definition lockedDrivenBone : Bone :=
  mkBone "b"%string None 10 0 0 0 true true [] [halfDriver].

Definition lockedXDrivenBone : Bone :=
  mkBone "b"%string None 10 0 0 0 true true []
         [mkDriver PX "a"%string PRotation (1 / 2) 10].

Definition follow (source : string) : Driver :=
  mkDriver PRotation source PRotation 1 0.

Definition linkD : Bone :=
  mkBone "d"%string None 10 10 0 0 false true [] [follow "c"%string].
Definition linkC : Bone :=
  mkBone "c"%string None 10 20 0 0 false true [] [follow "b"%string].
Definition linkB : Bone :=
  mkBone "b"%string None 10 30 0 0 false true [] [follow "a"%string].
Definition linkA : Bone :=
  mkBone "a"%string None 10 40 0 0 false true [] [].

Definition linkHeap : heap := heapOf linkD [linkC; linkB; linkA].
Definition linkBones : list ref := [0%nat; 1%nat; 2%nat; 3%nat].

Definition noRotationDriver (b : Bone) : Prop :=
  forall d, In d (drivers b) -> driverProperty d <> PRotation.

Definition setLocked (l : bool) (b : Bone) : Bone :=
  mkBone (id b) (parentId b) (length b) (rotation b) (x b) (y b)
         l (visible b) (constraints b) (drivers b).

(** The store with the [locked] flag of every object replaced. *)
Definition relock (f : ref -> bool) (h : heap) : heap :=
  mkHeap (fun r => setLocked (f r) (cells h r)) (next h).

Definition relocked (f : ref -> bool) (h1 h2 : heap) : Prop :=
  forall r, cells h1 r = setLocked (f r) (cells h2 r).

(** [d.id] of a derived bone. *)
Definition derivedId (d : DerivedBone) : string := id (base d).

(** A list of bones of the array, each the child of the next, ending in a
    root. *)
Inductive RootPath (ds : list Bone) : list Bone -> Prop :=
| RootPath_root b :
    In b ds -> parentId b = None -> RootPath ds [b]
| RootPath_child c b p :
    RootPath ds (b :: p) -> In c ds -> parentId c = Some (id b) ->
    RootPath ds (c :: b :: p).

(** The ids that a walk down the [parentId] links from a root reaches. *)
Inductive ReachableId (ds : list Bone) : string -> Prop :=
| ReachableId_root b :
    In b ds -> parentId b = None -> ReachableId ds (id b)
| ReachableId_child c pid :
    In c ds -> parentId c = Some pid -> ReachableId ds pid ->
    ReachableId ds (id c).

(** The order of the sort. *)
Definition timeLe (a b : Keyframe) : Prop := time a <= time b.

Definition twoKeys (e : EasingType) : Track :=
  mkTrack "arm"%string TRotation [mkKeyframe 0 10 e; mkKeyframe 10 20 Linear].


Definition overshootClip : AnimationClip :=
  mkClip 10 24 [mkTrack "arm"%string TRotation [mkKeyframe 0 200 Linear]].

Definition ikRoot : Bone :=
  mkBone "a"%string None 70 0 1 0 false true [] [].

Definition ikTip : Bone :=
  mkBone "b"%string (Some "a"%string) 60 0 0 0 false true [] [].

Definition ikBystander : Bone :=
  mkBone "c"%string None 10 0 0 0 false true []
         [mkDriver PX "a"%string PX 1 5].

Definition ikHeap : heap := heapOf ikRoot [ikTip; ikBystander].

Definition ikBones : list ref := [0%nat; 1%nat; 2%nat].

(** Two bones that differ at most in rotation. *)
Definition sameButRotation (a b : Bone) : Prop :=
  b = setRotation (rotation b) a.

(** The state of the solver between two rounds, against its input: the
    input objects are as they were, and every element of the working array
    is the input element or a copy made by the solver, equal to it but for
    the rotation; an element is the input element itself when its id is not
    on the chain or it is locked; its rotation is the input rotation or
    lies within the bounds of its limit. *)
Definition ikInvariant (h : heap) (bones : list ref) (chain : list string)
    (st : heap * list ref) : Prop :=
  (next h <= next (fst st))%nat /\
  (forall r, (r < next h)%nat -> cells (fst st) r = cells h r) /\
  Forall2 (fun r rk =>
             (rk < next (fst st))%nat /\
             sameButRotation (cells h r) (cells (fst st) rk) /\
             (~ In (id (cells h r)) chain \/ locked (cells h r) = true ->
              rk = r) /\
             (rotation (cells (fst st) rk) = rotation (cells h r) \/
              forall limit lo hi,
                findLimit (cells h r) = Some limit ->
                cmin limit = Some lo -> cmax limit = Some hi -> lo <= hi ->
                lo <= rotation (cells (fst st) rk) <= hi))
          bones (snd st).

(** * Properties *)

(** ** Comparisons *)

Lemma Rltb_true (a b : R) : Rltb a b = true <-> a < b.
Proof. unfold Rltb; destruct (Rlt_dec a b); split; intros; try easy. Qed.

Lemma Rltb_false (a b : R) : Rltb a b = false <-> b <= a.
Proof.
  unfold Rltb; destruct (Rlt_dec a b); split; intros; try easy; lra.
Qed.

Lemma Rleb_true (a b : R) : Rleb a b = true <-> a <= b.
Proof. unfold Rleb; destruct (Rle_dec a b); split; intros; try easy. Qed.

Lemma Rleb_false (a b : R) : Rleb a b = false <-> b < a.
Proof.
  unfold Rleb; destruct (Rle_dec a b); split; intros; try easy; lra.
Qed.

(** ** The normalisation loops *)

Lemma whileAbove_spec (n : nat) : forall v : R,
  v <= 180 + 360 * INR n ->
  exists r, whileAbove (S n) v = Some r /\ r <= 180 /\
            (r = v \/ -180 < r) /\ exists k : nat, r = v - 360 * INR k.
Proof.
  induction n as [|n IH]; intros v Hv.
  - simpl in Hv. exists v. simpl. unfold Rgtb, Rltb.
    destruct (Rlt_dec 180 v); [lra|].
    repeat split; [lra | now left | exists O; simpl; lra].
  - rewrite S_INR in Hv.
    change (whileAbove (S (S n)) v)
      with (if Rgtb v 180 then whileAbove (S n) (v - 360) else Some v).
    unfold Rgtb, Rltb. destruct (Rlt_dec 180 v) as [Hgt|Hle].
    + destruct (IH (v - 360)) as (r & Hr & Hub & Hlo & k & Hk); [lra|].
      exists r. repeat split; trivial.
      * right. destruct Hlo; lra.
      * exists (S k). rewrite S_INR. lra.
    + exists v. repeat split; [lra | now left | exists O; simpl; lra].
Qed.

Lemma whileBelow_spec (n : nat) : forall v : R,
  -180 - 360 * INR n <= v ->
  exists r, whileBelow (S n) v = Some r /\ -180 <= r /\
            (r = v \/ r < 180) /\ exists k : nat, r = v + 360 * INR k.
Proof.
  induction n as [|n IH]; intros v Hv.
  - simpl in Hv. exists v. simpl. unfold Rltb.
    destruct (Rlt_dec v (-180)); [lra|].
    repeat split; [lra | now left | exists O; simpl; lra].
  - rewrite S_INR in Hv.
    change (whileBelow (S (S n)) v)
      with (if Rltb v (-180) then whileBelow (S n) (v + 360) else Some v).
    unfold Rltb. destruct (Rlt_dec v (-180)) as [Hlt|Hge].
    + destruct (IH (v + 360)) as (r & Hr & Hlb & Hhi & k & Hk); [lra|].
      exists r. repeat split; trivial.
      * right. destruct Hhi; lra.
      * exists (S k). rewrite S_INR. lra.
    + exists v. repeat split; [lra | now left | exists O; simpl; lra].
Qed.

(** More fuel does not change the result of a loop that has returned. *)
Lemma whileAbove_mono (n : nat) : forall (v r : R) (m : nat),
  whileAbove n v = Some r -> (n <= m)%nat -> whileAbove m v = Some r.
Proof.
  induction n as [|n IH]; intros v r m H Hle; [discriminate|].
  destruct m as [|m]; [lia|]. simpl in *.
  destruct (Rgtb v 180); [apply IH; [assumption | lia] | assumption].
Qed.

Lemma whileBelow_mono (n : nat) : forall (v r : R) (m : nat),
  whileBelow n v = Some r -> (n <= m)%nat -> whileBelow m v = Some r.
Proof.
  induction n as [|n IH]; intros v r m H Hle; [discriminate|].
  destruct m as [|m]; [lia|]. simpl in *.
  destruct (Rltb v (-180)); [apply IH; [assumption | lia] | assumption].
Qed.

Lemma loopBound_covers (val : R) :
  Rabs val < 360 * INR (Z.to_nat (up (Rabs val / 360))).
Proof.
  destruct (archimed (Rabs val / 360)) as [Hup _].
  pose proof (Rabs_pos val) as Hpos.
  assert (H0 : 0 <= Rabs val / 360) by (unfold Rdiv; nra).
  assert (Hz : (0 <= up (Rabs val / 360))%Z).
  { apply le_IZR. simpl. lra. }
  rewrite INR_IZR_INZ, Z2Nat.id by assumption.
  unfold Rdiv in Hup. lra.
Qed.

(** Both loops return within [loopBound val] iterations, and the value they
    leave is in the closed interval from -180 to 180 and differs from [val]
    by a multiple of 360. *)
Lemma normalize_terminates (val : R) :
  exists v, normalizeFuel (loopBound val) val = Some v /\
            -180 <= v <= 180 /\ exists k : Z, v = val + 360 * IZR k.
Proof.
  pose proof (loopBound_covers val) as Hb.
  pose proof (Rabs_def2 val (Rabs val + 1)) as Habs.
  assert (Hv : - Rabs val <= val <= Rabs val).
  { unfold Rabs. destruct (Rcase_abs val); lra. }
  unfold normalizeFuel, loopBound.
  destruct (whileAbove_spec (Z.to_nat (up (Rabs val / 360))) val)
    as (r1 & Hr1 & Hub1 & Hlo1 & k1 & Hk1); [lra|].
  rewrite Hr1.
  destruct (whileBelow_spec (Z.to_nat (up (Rabs val / 360))) r1)
    as (r2 & Hr2 & Hlb2 & Hhi2 & k2 & Hk2).
  { destruct Hlo1; lra. }
  exists r2. split; [assumption|]. split.
  - destruct Hhi2; lra.
  - exists (Z.of_nat k2 - Z.of_nat k1)%Z.
    rewrite minus_IZR, <- !INR_IZR_INZ. lra.
Qed.

Lemma normalize_range (val : R) : -180 <= normalize val <= 180.
Proof.
  unfold normalize.
  destruct (normalize_terminates val) as (v & Hv & Hr & _).
  now rewrite Hv.
Qed.

(** Whatever fuel the loops return with, they return [normalize val]. *)
Lemma normalizeFuel_normalize (fuel : nat) (val v : R) :
  normalizeFuel fuel val = Some v -> v = normalize val.
Proof.
  unfold normalize, normalizeFuel. intros H.
  destruct (whileAbove fuel val) as [r1|] eqn:H1; [|discriminate].
  destruct (normalize_terminates val) as (v' & Hv' & _).
  unfold normalizeFuel in Hv'. rewrite Hv'.
  destruct (whileAbove (loopBound val) val) as [r1'|] eqn:H1';
    [|discriminate].
  destruct (Nat.le_ge_cases fuel (loopBound val)) as [Hle|Hle].
  - rewrite (whileAbove_mono _ _ _ _ H1 Hle) in H1'. injection H1' as <-.
    rewrite (whileBelow_mono _ _ _ _ H Hle) in Hv'. congruence.
  - rewrite (whileAbove_mono _ _ _ _ H1' Hle) in H1. injection H1 as <-.
    rewrite (whileBelow_mono _ _ _ _ Hv' Hle) in H. congruence.
Qed.

(** A value already between -180 and 180 is left as it is. *)
Lemma normalize_id (v : R) : -180 <= v <= 180 -> normalize v = v.
Proof.
  intros Hv. symmetry. apply (normalizeFuel_normalize 1).
  unfold normalizeFuel. simpl. rcmp.
Qed.

(** One turn of the first loop. *)
Lemma normalize_above (v : R) :
  180 < v -> normalize v = normalize (v - 360).
Proof.
  intros Hv.
  destruct (normalize_terminates (v - 360)) as (r & Hr & _).
  rewrite <- (normalizeFuel_normalize _ _ _ Hr).
  symmetry. apply (normalizeFuel_normalize (S (loopBound (v - 360)))).
  unfold normalizeFuel in *.
  destruct (whileAbove (loopBound (v - 360)) (v - 360)) as [r1|] eqn:H1;
    [|discriminate].
  change (whileAbove (S (loopBound (v - 360))) v)
    with (if Rgtb v 180 then whileAbove (loopBound (v - 360)) (v - 360)
          else Some v).
  unfold Rgtb, Rltb at 1. destruct (Rlt_dec 180 v); [|lra].
  rewrite H1. apply (whileBelow_mono _ _ _ _ Hr). lia.
Qed.





Lemma clampTo_range (v lo hi : R) :
  lo <= hi -> lo <= clampTo v (Some lo) (Some hi) <= hi.
Proof. intros H. unfold clampTo. rcmp. Qed.

(** ** Structure of the traversal *)

Lemma forEachPush_In {A B : Type} (f : A -> option (list B)) (l : list A) :
  forall res d, forEachPush f l = Some res -> In d res ->
  exists a r, In a l /\ f a = Some r /\ In d r.
Proof.
  induction l as [|a l IH]; simpl; intros res d H Hd.
  - injection H as <-. destruct Hd.
  - destruct (f a) as [r1|] eqn:Hf; [|discriminate].
    destruct (forEachPush f l) as [r2|] eqn:Hl; [|discriminate].
    injection H as <-. apply in_app_or in Hd as [Hd|Hd].
    + exists a, r1. auto.
    + destruct (IH r2 d eq_refl Hd) as (a' & r & Ha & Hr & Hin).
      exists a', r. auto.
Qed.

Lemma forEachPush_incl {A B : Type} (f : A -> option (list B)) (l : list A) :
  forall res a r, forEachPush f l = Some res -> In a l -> f a = Some r ->
  incl r res.
Proof.
  induction l as [|a' l IH]; simpl; intros res a r H Ha Hr; [destruct Ha|].
  destruct (f a') as [r1|] eqn:Hf; [|discriminate].
  destruct (forEachPush f l) as [r2|] eqn:Hl; [|discriminate].
  injection H as <-. destruct Ha as [->|Ha].
  - rewrite Hr in Hf. injection Hf as <-. now apply incl_appl, incl_refl.
  - apply incl_appr. now apply (IH r2 a r).
Qed.

Lemma forEachPush_total {A B : Type} (f : A -> option (list B)) (l : list A) :
  (forall a, In a l -> exists r, f a = Some r) ->
  exists res, forEachPush f l = Some res.
Proof.
  induction l as [|a l IH]; simpl; intros H; [now exists []|].
  destruct (H a) as (r1 & ->); [now left|].
  destruct IH as (r2 & ->); [intros; apply H; now right|].
  now exists (r1 ++ r2).
Qed.

Lemma isChildOf_parent (bone b : Bone) :
  isChildOf bone b = true -> parentId b = Some (id bone).
Proof.
  unfold isChildOf. destruct (parentId b) as [p|]; [|discriminate].
  intros H. apply String.eqb_eq in H. now subst.
Qed.

Lemma isRoot_parent (b : Bone) : isRoot b = true -> parentId b = None.
Proof. unfold isRoot. now destruct (parentId b). Qed.

Lemma deriveBone_id (bone : Bone) (parent : option DerivedBone) :
  id (base (deriveBone bone parent)) = id bone.
Proof. reflexivity. Qed.

(** Every bone pushed by [processBone] is derived either from the bone of
    the call under the parent of the call, or from a bone of the array
    under a parent that was pushed too and whose id its [parentId] names. *)
Lemma processBone_In (drivenBones : list Bone) (fuel : nat) :
  forall bone parent res d,
  processBone fuel drivenBones bone parent = Some res -> In d res ->
  d = deriveBone bone parent \/
  exists child p, In child drivenBones /\ In p res /\
                  parentId child = Some (id (base p)) /\
                  d = deriveBone child (Some p).
Proof.
  induction fuel as [|fuel IH]; intros bone parent res d H Hd;
    [discriminate|].
  simpl in H.
  destruct (forEachPush _ _) as [pushed|] eqn:Hp; [|discriminate].
  injection H as <-. destruct Hd as [<-|Hd]; [now left|]. right.
  destruct (forEachPush_In _ _ _ _ Hp Hd) as (child & r & Hc & Hr & Hin).
  pose proof Hc as Hfil.
  apply filter_In in Hc as [Hc Hpar]. apply isChildOf_parent in Hpar.
  destruct (IH _ _ _ _ Hr Hin) as [->|(c' & p & Hc' & Hp' & Hpar' & ->)].
  - exists child, (deriveBone bone parent). repeat split; trivial.
    now left.
  - exists c', p. repeat split; trivial. right.
    exact (forEachPush_incl _ _ _ child r Hp Hfil Hr _ Hp').
Qed.

Lemma traverse_In (drivenBones : list Bone) (fuel : nat) :
  forall res d, traverse fuel drivenBones = Some res -> In d res ->
  exists bone, In bone drivenBones /\
    ((parentId bone = None /\ d = deriveBone bone None) \/
     exists p, In p res /\ parentId bone = Some (id (base p)) /\
               d = deriveBone bone (Some p)).
Proof.
  unfold traverse. intros res d H Hd.
  destruct (forEachPush_In _ _ _ _ H Hd) as (root & r & Hroot & Hr & Hin).
  pose proof Hroot as Hroot'. apply filter_In in Hroot as [Hroot Hnull].
  apply isRoot_parent in Hnull.
  destruct (processBone_In _ _ _ _ _ _ Hr Hin)
    as [->|(child & p & Hc & Hp & Hpar & ->)].
  - exists root. split; [assumption|]. now left.
  - exists child. split; [assumption|]. right. exists p.
    repeat split; trivial.
    now apply (forEachPush_incl _ _ _ _ _ H Hroot' Hr).
Qed.

(** ** Forward kinematics *)

Lemma deriveBone_equations (bone : Bone) (parent : option DerivedBone) :
  let d := deriveBone bone parent in
  base d = setRotation (effectiveRotation bone) bone /\
  worldStart d = match parent with
                 | Some p => worldEnd p
                 | None => mkVector2 (x bone) (y bone)
                 end /\
  worldRotation d = match parent with
                    | Some p => worldRotation p
                    | None => 0
                    end + effectiveRotation bone /\
  worldEnd d =
    mkVector2
      (vx (worldStart d) + length bone * cos (degToRad (worldRotation d)))
      (vy (worldStart d) + length bone * sin (degToRad (worldRotation d))).
Proof.
  unfold deriveBone; simpl.
  split; [reflexivity|]. split; [now destruct parent as [[? ? [] ?]|]|].
  split; [reflexivity|]. f_equal; apply Rplus_eq_compat_l, Rmult_comm.
Qed.

(** C1.  Every derived bone in the result of [calculateFK] comes from a
    bone of the driven array, keeps that bone's fields with the
    constrained rotation as local rotation, and satisfies the composition
    equations: its [worldStart] is the bone's (x, y) and its
    [worldRotation] is 0 plus the constrained rotation when the bone is a
    root, and they are the parent's [worldEnd] and the parent's
    [worldRotation] plus the constrained rotation when it was reached from
    a parent in the result; its [worldEnd] is [worldStart] plus [length]
    times the cosine and sine of [worldRotation] in radians.  For the chain
    of a root at (0,0) with rotation 0 and length 10 and a child with
    rotation 90 and length 5, the root ends at (10,0) and the child starts
    at (10,0), has world rotation 90 and ends at (10,5). *)
Theorem calculateFK_composition :
  (forall fuel h bones h' result,
     calculateFK fuel h bones = Some (h', result) ->
     forall d, In d result ->
     exists bone,
       In bone (map (cells h') bones) /\
       base d = setRotation (effectiveRotation bone) bone /\
       ((parentId bone = None /\
         worldStart d = mkVector2 (x bone) (y bone) /\
         worldRotation d = 0 + effectiveRotation bone) \/
        (exists p, In p result /\ parentId bone = Some (id (base p)) /\
           worldStart d = worldEnd p /\
           worldRotation d = worldRotation p + effectiveRotation bone)) /\
       worldEnd d =
         mkVector2
           (vx (worldStart d)
            + length bone * cos (degToRad (worldRotation d)))
           (vy (worldStart d)
            + length bone * sin (degToRad (worldRotation d)))) /\
  (forall fuel, exists rootD childD,
     calculateFK (S (S fuel)) (heapOf chainRoot [chainChild]) [0%nat; 1%nat]
       = Some (heapOf chainRoot [chainChild], [rootD; childD]) /\
     worldEnd rootD = mkVector2 10 0 /\
     worldStart childD = mkVector2 10 0 /\
     worldRotation childD = 90 /\
     worldEnd childD = mkVector2 10 5).
Proof.
  split.
  - intros fuel h bones h' result H d Hd. unfold calculateFK in H.
    destruct (evaluateDrivers h bones) as [h1 driven] eqn:He.
    unfold evaluateDrivers in He. injection He as <- <-.
    destruct (traverse fuel _) as [res|] eqn:Ht; [|discriminate].
    injection H as <- <-.
    destruct (traverse_In _ _ _ _ Ht Hd)
      as (bone & Hb & [[Hpar ->]|(p & Hp & Hpar & ->)]);
      exists bone; (split; [assumption|]).
    + destruct (deriveBone_equations bone None) as (E1 & E2 & E3 & E4).
      repeat split; trivial. left. repeat split; trivial.
    + destruct (deriveBone_equations bone (Some p)) as (F1 & F2 & F3 & F4).
      repeat split; trivial. right. exists p. repeat split; trivial.
  - intros fuel.
    exists (deriveBone chainRoot None),
           (deriveBone chainChild (Some (deriveBone chainRoot None))).
    split; [reflexivity|].
    assert (C0 : cos (degToRad (0 + 0)) = 1).
    { unfold degToRad. replace ((0 + 0) * PI / 180) with 0 by lra.
      apply cos_0. }
    assert (S0 : sin (degToRad (0 + 0)) = 0).
    { unfold degToRad. replace ((0 + 0) * PI / 180) with 0 by lra.
      apply sin_0. }
    assert (C90 : cos (degToRad (0 + 0 + 90)) = 0).
    { unfold degToRad. replace ((0 + 0 + 90) * PI / 180) with (PI / 2) by lra.
      apply cos_PI2. }
    assert (S90 : sin (degToRad (0 + 0 + 90)) = 1).
    { unfold degToRad. replace ((0 + 0 + 90) * PI / 180) with (PI / 2) by lra.
      apply sin_PI2. }
    unfold deriveBone, effectiveRotation; simpl.
    rewrite C0, S0, C90, S90.
    repeat split; f_equal; lra.
Qed.

Lemma calculateFK_composition_witness :
  exists bone,
    In bone (map (cells (heapOf chainRoot [chainChild])) [0%nat; 1%nat]) /\
    base (deriveBone chainRoot None)
      = setRotation (effectiveRotation bone) bone.
Proof.
  destruct (proj1 calculateFK_composition 2%nat
              (heapOf chainRoot [chainChild]) [0%nat; 1%nat]
              (heapOf chainRoot [chainChild])
              [deriveBone chainRoot None;
               deriveBone chainChild (Some (deriveBone chainRoot None))]
              eq_refl (deriveBone chainRoot None) (or_introl eq_refl))
    as (bone & Hin & Hbase & _).
  exists bone. split; assumption.
Defined.

(** C2.  With [LIMIT_ROTATION] bounds -10 and 130 and raw rotation 200,
    the first loop takes 200 to -160 by one subtraction of 360, the
    normalised value is -160, and the clamp returns -10; so does the
    derived bone of any bone whose first [LIMIT_ROTATION] constraint has
    these bounds, under any parent, and [calculateFK] on such a bone. *)
Theorem rotation_clamp_200 :
  whileAbove 2 200 = Some (-160) /\
  normalize 200 = -160 /\
  constrainRotation 200 (Some (-10)) (Some 130) = -10 /\
  (forall bone parent limit,
     rotation bone = 200 -> findLimit bone = Some limit ->
     cmin limit = Some (-10) -> cmax limit = Some 130 ->
     rotation (base (deriveBone bone parent)) = -10) /\
  (forall fuel, exists d,
     calculateFK (S fuel) (heapOf limitedBone []) [0%nat]
       = Some (heapOf limitedBone [], [d]) /\
     rotation (base d) = -10).
Proof.
  assert (Hw : whileAbove 2 200 = Some (-160)).
  { simpl. rcmp. f_equal. lra. }
  assert (Hn : normalize 200 = -160).
  { rewrite normalize_above by lra.
    replace (200 - 360) with (-160) by lra. apply normalize_id. lra. }
  assert (Hc : constrainRotation 200 (Some (-10)) (Some 130) = -10).
  { unfold constrainRotation. rewrite Hn. unfold clampTo. rcmp. }
  repeat split; trivial.
  - intros bone parent limit Hrot Hlim Hmin Hmax.
    unfold deriveBone, effectiveRotation. simpl.
    now rewrite Hlim, Hrot, Hmin, Hmax.
  - intros fuel. exists (deriveBone limitedBone None).
    split; [reflexivity|].
    unfold deriveBone, effectiveRotation. simpl. exact Hc.
Qed.

Lemma rotation_clamp_200_witness :
  rotation (base (deriveBone limitedBone None)) = -10.
Proof.
  apply (proj1 (proj2 (proj2 (proj2 rotation_clamp_200)))
           limitedBone None limit_10_130); reflexivity.
Defined.

Lemma sameShape_refl (a : Bone) : sameShape a a.
Proof. repeat split. Qed.

Lemma sameShape_trans (a b c : Bone) :
  sameShape a b -> sameShape b c -> sameShape a c.
Proof.
  unfold sameShape. intros (?&?&?&?&?&?&?) (?&?&?&?&?&?&?).
  repeat split; congruence.
Qed.

Lemma writeProp_shape (p : BoneProp) (v : R) (b : Bone) :
  sameShape (writeProp p v b) b.
Proof. destruct p; repeat split. Qed.

Lemma cells_hwrite (h : heap) (r r' : ref) (b : Bone) :
  cells (hwrite h r b) r' = if Nat.eqb r' r then b else cells h r'.
Proof. reflexivity. Qed.

Lemma applyDriver_shape bones target h driver r :
  sameShape (cells (applyDriver bones target h driver) r) (cells h r).
Proof.
  unfold applyDriver. destruct (findRef h bones (sourceBoneId driver));
    [|apply sameShape_refl].
  rewrite cells_hwrite. destruct (Nat.eqb_spec r target) as [->|_].
  - apply writeProp_shape.
  - apply sameShape_refl.
Qed.

Lemma fold_applyDriver_shape bones target ds : forall h r,
  sameShape (cells (fold_left (applyDriver bones target) ds h) r) (cells h r).
Proof.
  induction ds as [|d ds IH]; intros h r; simpl; [apply sameShape_refl|].
  eapply sameShape_trans; [apply IH | apply applyDriver_shape].
Qed.

Lemma driveBone_shape bones h target r :
  sameShape (cells (driveBone bones h target) r) (cells h r).
Proof. apply fold_applyDriver_shape. Qed.

Lemma fold_driveBone_shape bones ts : forall h r,
  sameShape (cells (fold_left (driveBone bones) ts h) r) (cells h r).
Proof.
  induction ts as [|t ts IH]; intros h r; simpl; [apply sameShape_refl|].
  eapply sameShape_trans; [apply IH | apply driveBone_shape].
Qed.

Lemma driverPass_shape bones h r :
  sameShape (cells (driverPass bones h) r) (cells h r).
Proof. apply fold_driveBone_shape. Qed.

Lemma evaluateDrivers_shape h bones r :
  sameShape (cells (fst (evaluateDrivers h bones)) r) (cells h r).
Proof.
  simpl. eapply sameShape_trans; apply driverPass_shape.
Qed.

Lemma evaluateDrivers_next h bones :
  next (fst (evaluateDrivers h bones)) = next h.
Proof.
  assert (A : forall bs t ds h0,
             next (fold_left (applyDriver bs t) ds h0) = next h0).
  { intros bs t ds. induction ds as [|d ds IH]; intros h0; simpl; trivial.
    rewrite IH. unfold applyDriver. now destruct (findRef _ _ _). }
  assert (B : forall bs ts h0,
             next (fold_left (driveBone bs) ts h0) = next h0).
  { intros bs ts. induction ts as [|t ts IH]; intros h0; simpl; trivial.
    rewrite IH. apply A. }
  simpl. unfold driverPass. now rewrite !B.
Qed.

(** C6, at a failing input.  With a bone ["a"] of rotation 20 and a bone
    ["b"] of rotation 0 driven from it with factor 1/2 and offset 10,
    [evaluateDrivers] returns an array of the same references and has
    changed the rotation of the argument's second object from 0 to 20. *)
Lemma evaluateDrivers_mutates_input :
  let h := heapOf sourceBone [drivenBone] in
  let bones := [0%nat; 1%nat] in
  let (h', updatedBones) := evaluateDrivers h bones in
  updatedBones = bones /\
  rotation (cells h 1%nat) = 0 /\
  rotation (cells h' 1%nat) = 20.
Proof.
  cbn. repeat split. lra.
Qed.

(** C7 as stated fails: a locked bone with a rotation driver has its
    rotation overwritten. *)
Lemma evaluateDrivers_writes_locked :
  let h := heapOf sourceBone [lockedDrivenBone] in
  let bones := [0%nat; 1%nat] in
  locked (cells h 1%nat) = true /\
  rotation (cells (fst (evaluateDrivers h bones)) 1%nat)
    <> rotation (cells h 1%nat).
Proof.
  cbn. split; [reflexivity|]. lra.
Qed.

(** C5, at a failing input.  On a chain of three rotation drivers held in
    the array against the direction of the chain, [calculateFK] changes the
    rotation of the first bone of its argument from 10 to 30, and a second
    call on the same array returns a different list: the first derived
    bone has rotation 30 after the first call and 40 after the second. *)
Lemma calculateFK_twice_differs :
  exists h1 r1 h2 r2,
    calculateFK 4 linkHeap linkBones = Some (h1, r1) /\
    calculateFK 4 h1 linkBones = Some (h2, r2) /\
    r1 <> r2 /\
    rotation (cells linkHeap 0%nat) = 10 /\
    rotation (cells h1 0%nat) = 30 /\
    option_map (fun d => rotation (base d)) (hd_error r1) = Some 30 /\
    option_map (fun d => rotation (base d)) (hd_error r2) = Some 40.
Proof.
  destruct (calculateFK 4 linkHeap linkBones) as [[h1 r1]|] eqn:H1;
    [|discriminate H1].
  destruct (calculateFK 4 h1 linkBones) as [[h2 r2]|] eqn:H2.
  2:{ cbn in H1. injection H1 as <- <-. discriminate H2. }
  exists h1, r1, h2, r2.
  cbn in H1. injection H1 as <- <-.
  cbn in H2. injection H2 as <- <-.
  assert (E1 : (30 * 1 + 0) * 1 + 0 = 30) by lra.
  assert (E2 : ((40 * 1 + 0) * 1 + 0) * 1 + 0 = 40) by lra.
  repeat split.
  - intros E. apply (f_equal (fun l => option_map (fun d => rotation (base d))
                                         (hd_error l))) in E.
    cbn in E. unfold effectiveRotation in E. cbn in E.
    injection E as E. lra.
  - cbn. lra.
  - cbn. unfold effectiveRotation. cbn. f_equal. lra.
  - cbn. unfold effectiveRotation. cbn. f_equal. lra.
Qed.

Lemma applyDriver_other bones target h driver r :
  r <> target -> cells (applyDriver bones target h driver) r = cells h r.
Proof.
  intros Hne. unfold applyDriver.
  destruct (findRef h bones (sourceBoneId driver)); [|reflexivity].
  rewrite cells_hwrite. now destruct (Nat.eqb_spec r target).
Qed.

Lemma applyDriver_rotation bones target h driver r :
  r <> target \/ driverProperty driver <> PRotation ->
  rotation (cells (applyDriver bones target h driver) r)
    = rotation (cells h r).
Proof.
  intros H. unfold applyDriver.
  destruct (findRef h bones (sourceBoneId driver)); [|reflexivity].
  rewrite cells_hwrite. destruct (Nat.eqb_spec r target) as [->|]; trivial.
  destruct H as [H|H]; [contradiction|].
  now destruct (driverProperty driver).
Qed.

Lemma fold_applyDriver_rotation bones target ds : forall h r,
  r <> target \/ (forall d, In d ds -> driverProperty d <> PRotation) ->
  rotation (cells (fold_left (applyDriver bones target) ds h) r)
    = rotation (cells h r).
Proof.
  induction ds as [|d ds IH]; intros h r H; simpl; [reflexivity|].
  rewrite IH.
  - apply applyDriver_rotation. destruct H as [H|H]; [now left|].
    right. apply H. now left.
  - destruct H as [H|H]; [now left|]. right. intros d' Hd'.
    apply H. now right.
Qed.

Lemma driveBone_rotation bones h target r :
  noRotationDriver (cells h r) ->
  rotation (cells (driveBone bones h target) r) = rotation (cells h r).
Proof.
  intros H. unfold driveBone. apply fold_applyDriver_rotation.
  destruct (Nat.eq_dec r target) as [->|Hne]; [right; exact H | now left].
Qed.

Lemma noRotationDriver_shape (a b : Bone) :
  sameShape a b -> noRotationDriver b -> noRotationDriver a.
Proof.
  intros (_&_&_&_&_&_&Hd) H. unfold noRotationDriver. now rewrite Hd.
Qed.

Lemma driverPass_rotation bones h r :
  noRotationDriver (cells h r) ->
  rotation (cells (driverPass bones h) r) = rotation (cells h r).
Proof.
  unfold driverPass. generalize bones at 2 as ts.
  intros ts. revert h. induction ts as [|t ts IH]; intros h H; simpl;
    [reflexivity|].
  rewrite IH.
  - now apply driveBone_rotation.
  - eapply noRotationDriver_shape; [apply driveBone_shape | exact H].
Qed.

Lemma evaluateDrivers_rotation_frame (h : heap) (bones : list ref) (r : ref) :
  (forall d, In d (drivers (cells h r)) -> driverProperty d <> PRotation) ->
  rotation (cells (fst (evaluateDrivers h bones)) r) = rotation (cells h r).
Proof.
  intros H. simpl. rewrite driverPass_rotation.
  - now apply driverPass_rotation.
  - eapply noRotationDriver_shape; [apply driverPass_shape | exact H].
Qed.

Lemma findRef_relocked f h1 h2 bones i :
  relocked f h1 h2 -> findRef h1 bones i = findRef h2 bones i.
Proof.
  intros H. unfold findRef. induction bones as [|r rs IH]; simpl; trivial.
  rewrite H. simpl. now rewrite IH.
Qed.

Lemma applyDriver_relocked f bones target h1 h2 driver :
  relocked f h1 h2 ->
  relocked f (applyDriver bones target h1 driver)
             (applyDriver bones target h2 driver).
Proof.
  intros H. unfold applyDriver. rewrite (findRef_relocked f h1 h2) by exact H.
  destruct (findRef h2 bones (sourceBoneId driver)) as [s|]; [|exact H].
  intros r. rewrite !cells_hwrite.
  destruct (Nat.eqb r target) eqn:E; [|apply H].
  apply Nat.eqb_eq in E. subst r. rewrite !H.
  destruct (driverProperty driver), (sourceProperty driver); reflexivity.
Qed.

Lemma fold_applyDriver_relocked f bones target ds : forall h1 h2,
  relocked f h1 h2 ->
  relocked f (fold_left (applyDriver bones target) ds h1)
             (fold_left (applyDriver bones target) ds h2).
Proof.
  induction ds as [|d ds IH]; intros h1 h2 H; simpl; [exact H|].
  apply IH. now apply applyDriver_relocked.
Qed.

Lemma driveBone_relocked f bones target h1 h2 :
  relocked f h1 h2 ->
  relocked f (driveBone bones h1 target) (driveBone bones h2 target).
Proof.
  intros H. unfold driveBone. rewrite H. simpl.
  now apply fold_applyDriver_relocked.
Qed.

Lemma driverPass_relocked f bones h1 h2 :
  relocked f h1 h2 ->
  relocked f (driverPass bones h1) (driverPass bones h2).
Proof.
  unfold driverPass. generalize bones at 2 4 as ts. intros ts.
  revert h1 h2. induction ts as [|t ts IH]; intros h1 h2 H; simpl; [exact H|].
  apply IH. now apply driveBone_relocked.
Qed.

Lemma evaluateDrivers_relock (f : ref -> bool) h bones r :
  cells (fst (evaluateDrivers (relock f h) bones)) r
    = setLocked (f r) (cells (fst (evaluateDrivers h bones)) r).
Proof.
  simpl. apply driverPass_relocked, driverPass_relocked.
  intros r'. reflexivity.
Qed.

(** C7, as amended.  The driver evaluator does not read the [locked] flag:
    replacing the flags of all objects in any way changes nothing in its
    result but those flags.  The rotation of a bone, locked or not, is the
    rotation it had on entry when none of its drivers has [driverProperty]
    ['rotation']. *)
Theorem evaluateDrivers_ignores_locked (h : heap) (bones : list ref) (r : ref) :
  (forall f : ref -> bool,
     cells (fst (evaluateDrivers (relock f h) bones)) r
       = setLocked (f r) (cells (fst (evaluateDrivers h bones)) r)) /\
  ((forall d, In d (drivers (cells h r)) -> driverProperty d <> PRotation) ->
   rotation (cells (fst (evaluateDrivers h bones)) r) = rotation (cells h r)).
Proof.
  split.
  - intros f. apply evaluateDrivers_relock.
  - apply evaluateDrivers_rotation_frame.
Qed.

Lemma evaluateDrivers_ignores_locked_witness :
  locked (cells (heapOf sourceBone [lockedXDrivenBone]) 1%nat) = true /\
  rotation (cells (fst (evaluateDrivers (heapOf sourceBone [lockedXDrivenBone])
                                        [0%nat; 1%nat])) 1%nat)
    = rotation (cells (heapOf sourceBone [lockedXDrivenBone]) 1%nat).
Proof.
  split; [reflexivity|].
  apply (proj2 (evaluateDrivers_ignores_locked
                  (heapOf sourceBone [lockedXDrivenBone])
                  [0%nat; 1%nat] 1%nat)).
  simpl. intros d [<-|[]]. discriminate.
Defined.


Lemma forEachPush_NoDup {A B C : Type} (g : B -> C)
    (f : A -> option (list B)) (l : list A) :
  NoDup l ->
  (forall a r, In a l -> f a = Some r -> NoDup (map g r)) ->
  (forall a1 a2 r1 r2 d1 d2, In a1 l -> In a2 l -> a1 <> a2 ->
     f a1 = Some r1 -> f a2 = Some r2 -> In d1 r1 -> In d2 r2 ->
     g d1 <> g d2) ->
  forall res, forEachPush f l = Some res -> NoDup (map g res).
Proof.
  induction l as [|a l IH]; simpl; intros Hnd Hone Hdis res H.
  - injection H as <-. constructor.
  - destruct (f a) as [r1|] eqn:Hf; [|discriminate].
    destruct (forEachPush f l) as [r2|] eqn:Hl; [|discriminate].
    injection H as <-. inversion Hnd as [|? ? Hnot Hnd']; subst.
    rewrite map_app. apply NoDup_app.
    + apply (Hone a); auto.
    + apply IH; trivial.
      * intros a' r Ha'. apply Hone. now right.
      * intros a1 a2 ? ? ? ? H1 H2. apply Hdis; now right.
    + intros c Hc1 Hc2.
      apply in_map_iff in Hc1 as (d1 & <- & Hd1).
      apply in_map_iff in Hc2 as (d2 & E & Hd2).
      destruct (forEachPush_In _ _ _ _ Hl Hd2) as (a2 & r & Ha2 & Hr & Hin).
      apply (Hdis a a2 r1 r d1 d2); auto.
      intros ->. contradiction.
Qed.


Section Traversal.

Variable ds : list Bone.
Hypothesis ids_distinct : NoDup (map id ds).

Lemma same_id (a b : Bone) : In a ds -> In b ds -> id a = id b -> a = b.
Proof.
  clear -ids_distinct. induction ds as [|c l IH]; simpl; [tauto|].
  inversion ids_distinct as [|? ? Hnot Hnd]; subst.
  intros [->|Ha] [->|Hb] E; trivial.
  - exfalso. apply Hnot. rewrite E. now apply in_map.
  - exfalso. apply Hnot. rewrite <- E. now apply in_map.
  - now apply IH.
Qed.

Lemma RootPath_incl l : RootPath ds l -> incl l ds.
Proof.
  induction 1 as [b Hb _|c b p _ IH Hc _]; intros a [<-|Ha]; trivial.
  - destruct Ha.
  - now apply IH.
Qed.

Lemma RootPath_unique l1 : RootPath ds l1 -> forall l2, RootPath ds l2 ->
  hd_error l1 = hd_error l2 -> l1 = l2.
Proof.
  induction 1 as [b Hb Hnull|c b p Hp IH Hc Hpar]; intros l2 H2 E.
  - inversion H2 as [b' Hb' Hnull'|c' b' p' Hp' Hc' Hpar']; subst;
      simpl in E; injection E as <-; [reflexivity|congruence].
  - inversion H2 as [b' Hb' Hnull'|c' b' p' Hp' Hc' Hpar']; subst;
      simpl in E; injection E as <-; [congruence|].
    f_equal. apply IH; trivial. simpl. f_equal.
    apply same_id; [|  |congruence].
    + apply (RootPath_incl _ Hp). now left.
    + apply (RootPath_incl _ Hp'). now left.
Qed.

Lemma RootPath_suffix l1 : forall l2,
  RootPath ds (l1 ++ l2) -> l2 <> [] -> RootPath ds l2.
Proof.
  induction l1 as [|a l1 IH]; intros l2 H Hne; [exact H|].
  apply IH; trivial. simpl in H.
  remember (a :: l1 ++ l2) as l eqn:E.
  destruct H as [b Hb Hnull|c b p Hp Hc Hpar]; injection E as -> E.
  - destruct l1, l2; try discriminate; congruence.
  - now rewrite <- E.
Qed.

Lemma RootPath_NoDup l : RootPath ds l -> NoDup l.
Proof.
  induction 1 as [b Hb Hnull|c b p Hp IH Hc Hpar].
  - constructor; [intros []|constructor].
  - constructor; [|exact IH]. intros Hin.
    apply in_split in Hin as (l1 & l2 & E).
    assert (Hs : RootPath ds (c :: l2)).
    { apply (RootPath_suffix l1); [now rewrite <- E | discriminate]. }
    assert (Hfull : RootPath ds (c :: b :: p)) by now constructor.
    pose proof (RootPath_unique _ Hs _ Hfull eq_refl) as E'.
    injection E' as E'. rewrite E' in E.
    apply (f_equal (@List.length Bone)) in E.
    rewrite length_app in E. simpl in E. lia.
Qed.

Lemma RootPath_length l : RootPath ds l -> (List.length l <= List.length ds)%nat.
Proof.
  intros H. apply NoDup_incl_length.
  - now apply RootPath_NoDup.
  - now apply RootPath_incl.
Qed.

Lemma RootPath_reachable b p : RootPath ds (b :: p) -> ReachableId ds (id b).
Proof.
  remember (b :: p) as l eqn:E. intros H. revert b p E.
  induction H as [b' Hb Hnull|c b' p' Hp IH Hc Hpar]; intros b p E;
    injection E as <- <-.
  - now apply ReachableId_root.
  - apply ReachableId_child with (pid := id b'); trivial.
    now apply (IH b' p').
Qed.

(** The recursion returns as soon as the fuel covers the bones that are
    not on the path from the current bone up to its root. *)
Lemma processBone_terminates (fuel : nat) : forall bone parent p,
  RootPath ds (bone :: p) ->
  (List.length ds < fuel + List.length (bone :: p))%nat ->
  exists res, processBone fuel ds bone parent = Some res.
Proof.
  induction fuel as [|fuel IH]; intros bone parent p Hp Hlen.
  - apply RootPath_length in Hp. simpl in *. lia.
  - simpl.
    destruct (forEachPush_total
                (fun child => processBone fuel ds child
                                (Some (deriveBone bone parent)))
                (filter (isChildOf bone) ds)) as (pushed & ->).
    + intros child Hc. apply filter_In in Hc as [Hc Hpar].
      apply isChildOf_parent in Hpar.
      apply (IH child _ (bone :: p)).
      * now constructor.
      * simpl in *. lia.
    + eauto.
Qed.

Lemma traverse_terminates (fuel : nat) :
  (List.length ds <= fuel)%nat -> exists res, traverse fuel ds = Some res.
Proof.
  intros Hlen. unfold traverse. apply forEachPush_total.
  intros root Hr. apply filter_In in Hr as [Hr Hnull].
  apply isRoot_parent in Hnull.
  apply (processBone_terminates fuel root None []).
  - now constructor.
  - simpl. lia.
Qed.


Lemma processBone_paths (fuel : nat) : forall bone parent p res,
  RootPath ds (bone :: p) ->
  processBone fuel ds bone parent = Some res ->
  NoDup (map derivedId res) /\
  forall d, In d res ->
    exists b l pre, RootPath ds (b :: l) /\ id b = derivedId d /\
                    b :: l = pre ++ bone :: p.
Proof.
  induction fuel as [|fuel IH]; intros bone parent p res Hp H;
    [discriminate|].
  simpl in H.
  destruct (forEachPush _ _) as [pushed|] eqn:Hpush; [|discriminate].
  injection H as <-.
  assert (Hmem : forall d, In d pushed ->
            exists c b l pre, In c (filter (isChildOf bone) ds) /\
              RootPath ds (b :: l) /\ id b = derivedId d /\
              b :: l = pre ++ c :: bone :: p).
  { intros d Hd.
    destruct (forEachPush_In _ _ _ _ Hpush Hd) as (c & r & Hc & Hr & Hin).
    pose proof Hc as Hc'. apply filter_In in Hc' as [Hc' Hpar].
    apply isChildOf_parent in Hpar.
    assert (Hcp : RootPath ds (c :: bone :: p)) by now constructor.
    destruct (IH _ _ _ _ Hcp Hr) as [_ Hall].
    destruct (Hall d Hin) as (b & l & pre & Hbl & Hid & E).
    now exists c, b, l, pre. }
  split.
  - simpl. constructor.
    + intros Hin. apply in_map_iff in Hin as (d & Hid & Hd).
      destruct (Hmem d Hd) as (c & b & l & pre & _ & Hbl & Hidb & E).
      assert (b = bone).
      { apply same_id.
        - apply (RootPath_incl _ Hbl). now left.
        - apply (RootPath_incl _ Hp). now left.
        - rewrite Hidb, Hid. reflexivity. }
      subst b.
      pose proof (RootPath_unique _ Hbl _ Hp eq_refl) as E'.
      rewrite E' in E. apply (f_equal (@List.length Bone)) in E.
      rewrite length_app in E. simpl in E. lia.
    + apply (forEachPush_NoDup derivedId _ _
               (NoDup_filter _ (NoDup_map_inv _ _ ids_distinct))) in Hpush;
        trivial.
      * intros c r Hc Hr. apply filter_In in Hc as [Hc Hpar].
        apply isChildOf_parent in Hpar.
        assert (Hcp : RootPath ds (c :: bone :: p)) by now constructor.
        now destruct (IH _ _ _ _ Hcp Hr).
      * intros c1 c2 r1 r2 d1 d2 Hc1 Hc2 Hne Hr1 Hr2 Hd1 Hd2 Eid.
        apply filter_In in Hc1 as [Hc1 Hpar1].
        apply isChildOf_parent in Hpar1.
        apply filter_In in Hc2 as [Hc2 Hpar2].
        apply isChildOf_parent in Hpar2.
        assert (Hp1 : RootPath ds (c1 :: bone :: p)) by now constructor.
        assert (Hp2 : RootPath ds (c2 :: bone :: p)) by now constructor.
        destruct (IH _ _ _ _ Hp1 Hr1) as [_ Hall1].
        destruct (IH _ _ _ _ Hp2 Hr2) as [_ Hall2].
        destruct (Hall1 d1 Hd1) as (b1 & l1 & pre1 & Hbl1 & Hid1 & E1).
        destruct (Hall2 d2 Hd2) as (b2 & l2 & pre2 & Hbl2 & Hid2 & E2).
        assert (b1 = b2).
        { apply same_id.
          - apply (RootPath_incl _ Hbl1). now left.
          - apply (RootPath_incl _ Hbl2). now left.
          - congruence. }
        subst b2.
        pose proof (RootPath_unique _ Hbl1 _ Hbl2 eq_refl) as E.
        rewrite E1, E2 in E.
        change (pre1 ++ [c1] ++ bone :: p = pre2 ++ [c2] ++ bone :: p) in E.
        rewrite !app_assoc in E. apply app_inv_tail in E.
        apply app_inj_tail in E as [_ E]. contradiction.
  - intros d [<-|Hd].
    + exists bone, p, []. repeat split; trivial.
    + destruct (Hmem d Hd) as (c & b & l & pre & _ & Hbl & Hidb & E).
      exists b, l, (pre ++ [c]). repeat split; trivial.
      now rewrite <- app_assoc.
Qed.

Lemma traverse_paths (fuel : nat) (res : list DerivedBone) :
  traverse fuel ds = Some res ->
  NoDup (map derivedId res) /\
  forall d, In d res -> ReachableId ds (derivedId d).
Proof.
  unfold traverse. intros H. split.
  - apply (forEachPush_NoDup derivedId _ _
             (NoDup_filter _ (NoDup_map_inv _ _ ids_distinct))) in H;
      trivial.
    + intros root r Hroot Hr. apply filter_In in Hroot as [Hroot Hnull].
      apply isRoot_parent in Hnull.
      assert (Hp : RootPath ds [root]) by now constructor.
      now destruct (processBone_paths _ _ _ _ _ Hp Hr).
    + intros c1 c2 r1 r2 d1 d2 Hc1 Hc2 Hne Hr1 Hr2 Hd1 Hd2 Eid.
      apply filter_In in Hc1 as [Hc1 Hnull1].
      apply isRoot_parent in Hnull1.
      apply filter_In in Hc2 as [Hc2 Hnull2].
      apply isRoot_parent in Hnull2.
      assert (Hp1 : RootPath ds [c1]) by now constructor.
      assert (Hp2 : RootPath ds [c2]) by now constructor.
      destruct (processBone_paths _ _ _ _ _ Hp1 Hr1) as [_ Hall1].
      destruct (processBone_paths _ _ _ _ _ Hp2 Hr2) as [_ Hall2].
      destruct (Hall1 d1 Hd1) as (b1 & l1 & pre1 & Hbl1 & Hid1 & E1).
      destruct (Hall2 d2 Hd2) as (b2 & l2 & pre2 & Hbl2 & Hid2 & E2).
      assert (b1 = b2).
      { apply same_id.
        - apply (RootPath_incl _ Hbl1). now left.
        - apply (RootPath_incl _ Hbl2). now left.
        - congruence. }
      subst b2.
      pose proof (RootPath_unique _ Hbl1 _ Hbl2 eq_refl) as E.
      rewrite E1, E2 in E.
      apply app_inj_tail in E as [_ E]. contradiction.
  - intros d Hd.
    destruct (forEachPush_In _ _ _ _ H Hd) as (root & r & Hroot & Hr & Hin).
    apply filter_In in Hroot as [Hroot Hnull].
    apply isRoot_parent in Hnull.
    assert (Hp : RootPath ds [root]) by now constructor.
    destruct (processBone_paths _ _ _ _ _ Hp Hr) as [_ Hall].
    destruct (Hall d Hin) as (b & l & pre & Hbl & Hid & _).
    rewrite <- Hid. now apply (RootPath_reachable b l).
Qed.

End Traversal.

Lemma forEachPush_more {A B : Type} (f g : A -> option (list B)) (l : list A) :
  (forall a r, In a l -> f a = Some r -> g a = Some r) ->
  forall res, forEachPush f l = Some res -> forEachPush g l = Some res.
Proof.
  induction l as [|a l IH]; simpl; intros Hfg res H; [exact H|].
  destruct (f a) as [r1|] eqn:Hf; [|discriminate].
  destruct (forEachPush f l) as [r2|] eqn:Hl; [|discriminate].
  rewrite (Hfg a r1) by auto. rewrite (IH (fun a' r Ha' => Hfg a' r (or_intror Ha')) r2 eq_refl).
  exact H.
Qed.

(** More fuel does not change the result of a traversal that returns. *)
Lemma processBone_more (ds : list Bone) (fuel : nat) :
  forall fuel' bone parent res, (fuel <= fuel')%nat ->
  processBone fuel ds bone parent = Some res ->
  processBone fuel' ds bone parent = Some res.
Proof.
  induction fuel as [|fuel IH]; intros fuel' bone parent res Hle H;
    [discriminate|].
  destruct fuel' as [|fuel']; [lia|]. simpl in *.
  destruct (forEachPush _ _) as [pushed|] eqn:Hp; [|discriminate].
  erewrite forEachPush_more; [exact H | | exact Hp].
  intros child r _ Hr. apply (IH fuel'); [lia | exact Hr].
Qed.

Lemma calculateFK_more (fuel fuel' : nat) h bones out :
  (fuel <= fuel')%nat ->
  calculateFK fuel h bones = Some out -> calculateFK fuel' h bones = Some out.
Proof.
  intros Hle. unfold calculateFK.
  destruct (evaluateDrivers h bones) as [h' driven].
  destruct (traverse fuel _) as [res|] eqn:Ht; [|discriminate].
  unfold traverse in *.
  erewrite forEachPush_more; [intros H; exact H | | exact Ht].
  intros root r _ Hr. now apply (processBone_more _ fuel).
Qed.

Lemma ReachableId_shape (ds1 ds2 : list Bone) (i : string) :
  (forall b, In b ds1 ->
     exists b', In b' ds2 /\ id b' = id b /\ parentId b' = parentId b) ->
  ReachableId ds1 i -> ReachableId ds2 i.
Proof.
  intros Hsh. induction 1 as [b Hb Hnull|c pid Hc Hpar _ IH].
  - destruct (Hsh b Hb) as (b' & Hb' & <- & E).
    apply ReachableId_root; congruence.
  - destruct (Hsh c Hc) as (c' & Hc' & <- & E).
    apply ReachableId_child with (pid := pid); congruence.
Qed.


Lemma driven_ids h bones :
  map id (map (cells (fst (evaluateDrivers h bones))) bones)
    = map (fun r => id (cells h r)) bones.
Proof.
  rewrite map_map. apply map_ext. intros r.
  now destruct (evaluateDrivers_shape h bones r).
Qed.



(** ** Keyframe interpolation *)

Lemma insertKey_perm (k : Keyframe) (l : list Keyframe) :
  Permutation (insertKey k l) (k :: l).
Proof.
  induction l as [|k' l IH]; simpl; [apply Permutation_refl|].
  destruct (Rleb (time k) (time k')); [apply Permutation_refl|].
  eapply Permutation_trans; [apply perm_skip, IH | apply perm_swap].
Qed.

Lemma sortKeys_perm (l : list Keyframe) : Permutation (sortKeys l) l.
Proof.
  induction l as [|k l IH]; simpl; [constructor|].
  eapply Permutation_trans; [apply insertKey_perm | now apply perm_skip].
Qed.

Lemma insertKey_sorted (k : Keyframe) (l : list Keyframe) :
  StronglySorted timeLe l -> StronglySorted timeLe (insertKey k l).
Proof.
  induction 1 as [|k' l Hs IH Hall]; simpl.
  - constructor; constructor.
  - destruct (Rleb (time k) (time k')) eqn:E.
    + apply Rleb_true in E. constructor.
      * now constructor.
      * constructor; [exact E|].
        apply Forall_impl with (P := timeLe k'); [|exact Hall].
        unfold timeLe. intros a Ha. lra.
    + apply Rleb_false in E. constructor; [exact IH|].
      apply (Permutation_Forall (Permutation_sym (insertKey_perm k l))).
      constructor; [unfold timeLe; lra | exact Hall].
Qed.

Lemma sortKeys_sorted (l : list Keyframe) : StronglySorted timeLe (sortKeys l).
Proof.
  induction l as [|k l IH]; simpl; [constructor|].
  now apply insertKey_sorted.
Qed.

Lemma sorted_last_max (l : list Keyframe) : StronglySorted timeLe l ->
  forall d k, In k l -> time k <= time (last l d).
Proof.
  induction 1 as [|a l Hs IH Hall]; intros d k Hk; [destruct Hk|].
  destruct l as [|b l'].
  - destruct Hk as [->|[]]. simpl. lra.
  - change (last (a :: b :: l') d) with (last (b :: l') d).
    destruct Hk as [<-|Hk]; [|now apply IH].
    apply Rle_trans with (time b).
    + rewrite Forall_forall in Hall. apply Hall. now left.
    + apply IH. now left.
Qed.

Lemma last_In (l : list Keyframe) (k d : Keyframe) : In (last (k :: l) d) (k :: l).
Proof.
  revert k. induction l as [|a l IH]; intros k; [now left|].
  right. apply IH.
Qed.

Lemma getEasing_0 (e : EasingType) : getEasing e 0 = 0.
Proof.
  destruct e; unfold getEasing, easeIn, easeOut, easeInOut, easeLinear;
    rcmp.
Qed.

Lemma scanKeys_step (a b : Keyframe) (rest : list Keyframe) (frame fb : R) :
  scanKeys (a :: b :: rest) frame fb
    = if Rgeb frame (time a) && Rltb frame (time b)
      then interpolate a b frame
      else scanKeys (b :: rest) frame fb.
Proof. reflexivity. Qed.

(** The loop returns at the first pair around [frame]. *)
Lemma scanKeys_between (l1 : list Keyframe) : forall k1 k2 l2 frame fallback,
  StronglySorted timeLe (l1 ++ k1 :: k2 :: l2) ->
  time k1 <= frame < time k2 ->
  scanKeys (l1 ++ k1 :: k2 :: l2) frame fallback = interpolate k1 k2 frame.
Proof.
  induction l1 as [|a l1 IH]; intros k1 k2 l2 frame fallback Hs Hf.
  - simpl. unfold Rgeb.
    destruct (Rleb (time k1) frame) eqn:E1;
      [|apply Rleb_false in E1; lra].
    destruct (Rltb frame (time k2)) eqn:E2;
      [reflexivity|apply Rltb_false in E2; lra].
  - inversion Hs as [|? ? Hs' Hall]; subst.
    assert (Hb : exists b rest, l1 ++ k1 :: k2 :: l2 = b :: rest /\
                                time b <= time k1).
    { destruct l1 as [|b l1'].
      - exists k1, (k2 :: l2). split; [reflexivity|lra].
      - exists b, (l1' ++ k1 :: k2 :: l2). split; [reflexivity|].
        simpl in Hs'. inversion Hs' as [|? ? _ Hall']; subst.
        rewrite Forall_forall in Hall'. apply Hall'.
        apply in_or_app. right. now left. }
    destruct Hb as (b & rest & E & Hbk).
    change (scanKeys ((a :: l1) ++ k1 :: k2 :: l2) frame fallback)
      with (scanKeys (a :: (l1 ++ k1 :: k2 :: l2)) frame fallback).
    rewrite E, scanKeys_step.
    destruct (Rltb frame (time b)) eqn:E2;
      [apply Rltb_true in E2; lra|].
    rewrite andb_false_r. rewrite <- E. now apply IH.
Qed.

Lemma sortKeys_nil (l : list Keyframe) : sortKeys l = [] <-> l = [].
Proof.
  split; intros H.
  - pose proof (sortKeys_perm l) as P. rewrite H in P.
    now apply Permutation_nil in P.
  - now subst.
Qed.

Lemma twoKeys_sorted (e : EasingType) :
  sortKeys (keyframes (twoKeys e))
    = [mkKeyframe 0 10 e; mkKeyframe 10 20 Linear].
Proof. simpl. rcmp. Qed.

(** C3.  [getInterpolatedValue] works on the keyframes sorted by time and
    returns null exactly when the track has no keyframes.  Otherwise, with
    [first] the earliest and [lastKey] the latest keyframe of the sorted
    list: a frame at or before the time of [first] gives the value of
    [first]; a frame at or after the time of [lastKey] gives the value of
    a keyframe with that latest time, which is [lastKey] itself when no two
    keyframes of the track share a time; and, under the same condition on
    the track, a frame with [time k1 <= frame < time k2] for keyframes
    [k1], [k2] adjacent in the sorted list gives
    [value k1 + (value k2 - value k1) * ease (easing k1) t] with
    [t = (frame - time k1) / (time k2 - time k1)].  With keyframes at time 0
    value 10 and time 10 value 20 the value at -5 is 10 and at 15 is 20 for
    every easing, and at 5 with linear easing it is 15. *)
Theorem getInterpolatedValue_spec (track : Track) (frame : R) :
  let keys := sortKeys (keyframes track) in
  Permutation keys (keyframes track) /\
  StronglySorted timeLe keys /\
  (getInterpolatedValue track frame = None <-> keyframes track = []) /\
  (forall first rest, keys = first :: rest ->
     let lastKey := last keys first in
     (forall k, In k (keyframes track) ->
        time first <= time k <= time lastKey) /\
     (frame <= time first ->
        getInterpolatedValue track frame = Some (value first)) /\
     (time lastKey <= frame ->
        exists k, In k (keyframes track) /\ time k = time lastKey /\
                  getInterpolatedValue track frame = Some (value k)) /\
     (NoDup (map time (keyframes track)) -> time lastKey <= frame ->
        getInterpolatedValue track frame = Some (value lastKey)) /\
     (NoDup (map time (keyframes track)) ->
      forall l1 k1 k2 l2, keys = l1 ++ k1 :: k2 :: l2 ->
        time k1 <= frame < time k2 ->
        getInterpolatedValue track frame
          = Some (value k1 + (value k2 - value k1)
                    * getEasing (easing k1)
                        ((frame - time k1) / (time k2 - time k1))))) /\
  (forall e, getInterpolatedValue (twoKeys e) (-5) = Some 10 /\
             getInterpolatedValue (twoKeys e) 15 = Some 20) /\
  getInterpolatedValue (twoKeys Linear) 5 = Some 15.
Proof.
  intros keys.
  pose proof (sortKeys_perm (keyframes track)) as Hperm.
  pose proof (sortKeys_sorted (keyframes track)) as Hsorted.
  fold keys in Hperm, Hsorted.
  split; [exact Hperm|]. split; [exact Hsorted|]. split; [|split; [|split]].
  - split; intros H.
    + apply sortKeys_nil. unfold getInterpolatedValue in H.
      fold keys in H |- *. destruct keys as [|k0 rest]; [reflexivity|].
      destruct (Rleb frame (time k0)); [discriminate|].
      destruct (Rgeb _ _); discriminate.
    + unfold getInterpolatedValue. now rewrite H.
  - intros first rest E lastKey.
    assert (Hmin : forall k, In k keys -> time first <= time k).
    { intros k Hk. rewrite E in Hk, Hsorted.
      inversion Hsorted as [|? ? _ Hall]; subst.
      destruct Hk as [<-|Hk]; [lra|].
      rewrite Forall_forall in Hall. now apply Hall. }
    assert (Hmax : forall k, In k keys -> time k <= time lastKey).
    { intros k Hk. now apply sorted_last_max. }
    assert (Hlast : In lastKey keys).
    { unfold lastKey. rewrite E. apply last_In. }
    assert (Hget : getInterpolatedValue track frame
                   = if Rleb frame (time first) then Some (value first)
                     else if Rgeb frame (time lastKey)
                          then Some (value lastKey)
                          else Some (scanKeys keys frame (value first))).
    { unfold getInterpolatedValue, lastKey. fold keys. now rewrite E. }
    assert (Hdistinct : NoDup (map time (keyframes track)) ->
              forall k, In k rest -> time first < time k).
    { intros Hnd k Hk.
      assert (Hnd' : NoDup (map time keys)).
      { apply (Permutation_NoDup
                 (Permutation_map time (Permutation_sym Hperm)) Hnd). }
      rewrite E in Hnd'. simpl in Hnd'.
      inversion Hnd' as [|? ? Hnot _]; subst.
      assert (time first <= time k) by (apply Hmin; rewrite E; now right).
      assert (time first <> time k).
      { intros Eq. apply Hnot. rewrite Eq. now apply in_map. }
      lra. }
    split; [|split; [|split; [|split]]].
    + intros k Hk.
      apply (Permutation_in _ (Permutation_sym Hperm)) in Hk. auto.
    + intros Hf. rewrite Hget.
      destruct (Rleb frame (time first)) eqn:E1; [reflexivity|].
      apply Rleb_false in E1. lra.
    + intros Hf. rewrite Hget.
      destruct (Rleb frame (time first)) eqn:E1.
      * apply Rleb_true in E1. exists first. repeat split.
        -- apply (Permutation_in _ Hperm). rewrite E. now left.
        -- assert (time first <= time lastKey) by now apply Hmin. lra.
      * exists lastKey. repeat split.
        -- now apply (Permutation_in _ Hperm).
        -- unfold Rgeb. destruct (Rleb (time lastKey) frame) eqn:E2;
             [reflexivity|]. apply Rleb_false in E2. lra.
    + intros Hnd Hf. rewrite Hget.
      destruct (Rleb frame (time first)) eqn:E1.
      * apply Rleb_true in E1.
        destruct rest as [|k rest'].
        -- unfold lastKey. rewrite E. reflexivity.
        -- exfalso.
           assert (In lastKey (k :: rest')).
           { unfold lastKey. rewrite E.
             change (last (first :: k :: rest') first)
               with (last (k :: rest') first). apply last_In. }
           assert (time first < time lastKey) by now apply Hdistinct.
           lra.
      * unfold Rgeb. destruct (Rleb (time lastKey) frame) eqn:E2;
          [reflexivity|]. apply Rleb_false in E2. lra.
    + intros Hnd l1 k1 k2 l2 Ek Hf. rewrite Hget.
      assert (Hk2 : time k2 <= time lastKey).
      { apply Hmax. rewrite Ek. apply in_or_app. right. right. now left. }
      destruct (Rleb frame (time first)) eqn:E1.
      * apply Rleb_true in E1. destruct l1 as [|a l1'].
        -- rewrite E in Ek. simpl in Ek. injection Ek as <- _.
           replace (frame - time first) with 0.
           ++ unfold Rdiv. rewrite Rmult_0_l, getEasing_0. f_equal. lra.
           ++ assert (time first <= frame) by tauto. lra.
        -- exfalso. rewrite E in Ek. simpl in Ek. injection Ek as <- Er.
           assert (time first < time k1).
           { apply Hdistinct; trivial. rewrite Er. apply in_or_app.
             right. now left. }
           lra.
      * unfold Rgeb. destruct (Rleb (time lastKey) frame) eqn:E2;
          [apply Rleb_true in E2; lra|].
        f_equal. rewrite Ek.
        apply scanKeys_between; [now rewrite <- Ek | exact Hf].
  - intros e. unfold getInterpolatedValue. rewrite twoKeys_sorted. simpl.
    split; rcmp.
  - unfold getInterpolatedValue. rewrite twoKeys_sorted. simpl.
    unfold interpolate, getEasing, easeLinear. simpl. rcmp.
    f_equal. simpl. replace (10 - 0) with 10 by lra. lra.
Qed.

Lemma getInterpolatedValue_spec_witness :
  getInterpolatedValue (twoKeys EaseIn) 12 = Some 20 /\
  getInterpolatedValue (twoKeys EaseIn) 5
    = Some (10 + (20 - 10) * getEasing EaseIn ((5 - 0) / (10 - 0))).
Proof.
  destruct (getInterpolatedValue_spec (twoKeys EaseIn) 12)
    as (_ & _ & _ & H & _).
  destruct (getInterpolatedValue_spec (twoKeys EaseIn) 5)
    as (_ & _ & _ & H' & _).
  specialize (H _ _ (twoKeys_sorted EaseIn)).
  specialize (H' _ _ (twoKeys_sorted EaseIn)).
  rewrite twoKeys_sorted in H, H'. simpl in H, H'.
  destruct H as (_ & _ & _ & Hlast & _).
  destruct H' as (_ & _ & _ & _ & Hmid).
  assert (Hnd : NoDup [0; 10]).
  { constructor; [intros [E|[]]; lra|]. constructor; [intros []|constructor]. }
  split.
  - apply Hlast; [exact Hnd | lra].
  - apply (Hmid Hnd [] (mkKeyframe 0 10 EaseIn) (mkKeyframe 10 20 Linear) []
             eq_refl). simpl. lra.
Defined.

(** ** Animation sampler *)

Lemma allocAll_spec (bs : list Bone) : forall h h' rs,
  allocAll h bs = (h', rs) ->
  (next h <= next h')%nat /\
  (forall r, (r < next h)%nat -> cells h' r = cells h r) /\
  map (cells h') rs = bs.
Proof.
  induction bs as [|b bs IH]; simpl; intros h h' rs H.
  - injection H as <- <-. auto.
  - destruct (allocAll _ bs) as [h2 rs'] eqn:Ha.
    injection H as <- <-.
    destruct (IH _ _ _ Ha) as (Hle & Hframe & Hmap). simpl in Hle, Hframe.
    repeat split.
    + lia.
    + intros r Hr. rewrite Hframe by lia.
      destruct (Nat.eqb_spec r (next h)); [lia|reflexivity].
    + simpl. rewrite Hmap, Hframe by lia. now rewrite Nat.eqb_refl.
Qed.

Lemma sampleProp_shape clip frame bone p set newBone :
  (forall v b, sameShape (set v b) b) ->
  sameShape (sampleProp clip frame bone p set newBone) newBone.
Proof.
  intros Hset. unfold sampleProp.
  destruct (findTrack clip bone p) as [t|]; [|apply sameShape_refl].
  destruct (getInterpolatedValue t frame); [apply Hset|apply sameShape_refl].
Qed.

Lemma sampleBone_shape clip frame bone :
  sameShape (sampleBone clip frame bone) bone.
Proof.
  unfold sampleBone.
  eapply sameShape_trans; [apply sampleProp_shape; intros; repeat split|].
  eapply sameShape_trans; [apply sampleProp_shape; intros; repeat split|].
  apply sampleProp_shape; intros; repeat split.
Qed.

Lemma reconcile_shape h derived r :
  sameShape (reconcile h derived r) (cells h r).
Proof.
  unfold reconcile. destruct (findDerived _ _); repeat split.
Qed.

Lemma forEachPush_each {A B : Type} (f : A -> option (list B)) (l : list A) :
  forall res a, forEachPush f l = Some res -> In a l ->
  exists r, f a = Some r /\ incl r res.
Proof.
  intros res a H Ha.
  destruct (f a) as [r|] eqn:Hf.
  - exists r. split; [reflexivity|].
    now apply (forEachPush_incl f l res a r).
  - exfalso. revert res H. induction l as [|a' l IH]; [destruct Ha|].
    intros res H. simpl in H. destruct Ha as [->|Ha].
    + now rewrite Hf in H.
    + destruct (f a'); [|discriminate].
      destruct (forEachPush f l) as [r2|]; [|discriminate].
      now apply (IH Ha r2).
Qed.

(** The result of a traversal holds the children of every bone it holds. *)
Lemma processBone_children (ds : list Bone) (fuel : nat) :
  forall bone parent res, processBone fuel ds bone parent = Some res ->
  (exists d, In d res /\ derivedId d = id bone) /\
  forall p c, In p res -> In c ds -> parentId c = Some (derivedId p) ->
              exists d, In d res /\ derivedId d = id c.
Proof.
  induction fuel as [|fuel IH]; intros bone parent res H; [discriminate|].
  simpl in H.
  destruct (forEachPush _ _) as [pushed|] eqn:Hp; [|discriminate].
  injection H as <-. split.
  - exists (deriveBone bone parent). split; [now left|reflexivity].
  - assert (Hchild : forall c, In c ds -> parentId c = Some (id bone) ->
                       exists d, In d pushed /\ derivedId d = id c).
    { intros c Hc Hpar.
      assert (Hf : In c (filter (isChildOf bone) ds)).
      { apply filter_In. split; [exact Hc|]. unfold isChildOf.
        rewrite Hpar. apply String.eqb_refl. }
      destruct (forEachPush_each _ _ _ _ Hp Hf) as (r & Hr & Hincl).
      destruct (IH _ _ _ Hr) as [(d & Hd & Hid) _].
      exists d. split; [now apply Hincl | exact Hid]. }
    intros p c [<-|Hpin] Hc Hpar.
    + destruct (Hchild c Hc Hpar) as (d & Hd & Hid).
      exists d. split; [now right | exact Hid].
    + destruct (forEachPush_In _ _ _ _ Hp Hpin) as (c0 & r & Hc0 & Hr & Hin).
      destruct (IH _ _ _ Hr) as [_ Hcl].
      destruct (Hcl p c Hin Hc Hpar) as (d & Hd & Hid).
      exists d. split; [|exact Hid]. right.
      now apply (forEachPush_incl _ _ _ _ _ Hp Hc0 Hr).
Qed.

(** Every reachable id is the id of a derived bone of the result. *)
Lemma traverse_complete (ds : list Bone) (fuel : nat) (res : list DerivedBone) :
  traverse fuel ds = Some res ->
  forall i, ReachableId ds i -> exists d, In d res /\ derivedId d = i.
Proof.
  unfold traverse. intros H i.
  induction 1 as [b Hb Hnull|c pid Hc Hpar _ (p & Hp & Hid)].
  - assert (Hf : In b (filter isRoot ds)).
    { apply filter_In. split; [exact Hb|]. unfold isRoot. now rewrite Hnull. }
    destruct (forEachPush_each _ _ _ _ H Hf) as (r & Hr & Hincl).
    destruct (processBone_children _ _ _ _ _ Hr) as [(d & Hd & Hidd) _].
    exists d. split; [now apply Hincl | exact Hidd].
  - destruct (forEachPush_In _ _ _ _ H Hp) as (root & r & Hroot & Hr & Hin).
    destruct (processBone_children _ _ _ _ _ Hr) as [_ Hcl].
    destruct (Hcl p c Hin Hc) as (d & Hd & Hidd); [now rewrite Hid|].
    exists d. split; [|exact Hidd].
    now apply (forEachPush_incl _ _ _ _ _ H Hroot Hr).
Qed.

Lemma findDerived_some (derived : list DerivedBone) (i : string) :
  (exists d, In d derived /\ derivedId d = i) ->
  exists d, findDerived derived i = Some d /\ In d derived /\ derivedId d = i.
Proof.
  intros (d & Hd & Hid). unfold findDerived.
  destruct (find _ derived) as [d'|] eqn:E.
  - apply find_some in E as [Hin Heq]. apply String.eqb_eq in Heq.
    now exists d'.
  - exfalso. apply (find_none _ _ E) in Hd. unfold derivedId in Hid.
    rewrite Hid, String.eqb_refl in Hd. discriminate.
Qed.

Lemma findLimit_shape (a b : Bone) : sameShape a b -> findLimit a = findLimit b.
Proof. intros (_&_&_&_&_&Hc&_). unfold findLimit. now rewrite Hc. Qed.


Lemma same_id_refs (h : heap) (bones : list ref) (r r' : ref) :
  NoDup (map (fun r => id (cells h r)) bones) ->
  In r bones -> In r' bones -> id (cells h r) = id (cells h r') -> r = r'.
Proof.
  induction bones as [|a l IH]; simpl; intros Hnd Hr Hr' E; [destruct Hr|].
  inversion Hnd as [|? ? Hnot Hnd']; subst.
  destruct Hr as [->|Hr], Hr' as [->|Hr']; trivial.
  - exfalso. apply Hnot. rewrite E.
    now apply (in_map (fun r => id (cells h r))).
  - exfalso. apply Hnot. rewrite <- E.
    now apply (in_map (fun r => id (cells h r))).
  - now apply IH.
Qed.


Lemma getInterpolatedValue_single (i : string) (p : TrackProp) (k : Keyframe)
    (frame : R) :
  getInterpolatedValue (mkTrack i p [k]) frame = Some (value k).
Proof.
  unfold getInterpolatedValue. simpl.
  destruct (Rleb frame (time k)); [reflexivity|].
  destruct (Rgeb frame (time k)); reflexivity.
Qed.

Lemma sampleBone_overshoot (b : Bone) :
  id b = "arm"%string ->
  sampleBone overshootClip 0 b = setRotation 200 b.
Proof.
  intros Hid. unfold sampleBone, sampleProp, findTrack. simpl.
  rewrite Hid. simpl. rewrite getInterpolatedValue_single. reflexivity.
Qed.



(** ** Inverse kinematics *)

Lemma solveIK_bystander_eval (atan2 : R -> R -> R) (target : Vector2) :
  match solveIK atan2 3 ikHeap ikBones "b"%string target with
  | Some (h', out) =>
      nth_error out 2 = Some 2%nat /\ x (cells h' 2%nat) = 1 * 1 + 5
  | None => False
  end.
Proof. vm_compute. split; reflexivity. Qed.

(** C4, at a failing input.  The chain of the effector ["b"] is ["b"; "a"];
    the bone ["c"] is not on it and carries a driver of its [x] from the
    [x] of ["a"].  [solveIK] returns, and the third element of the returned
    array is the same object as the third element of the argument, whose
    [x] the call has changed from 0 to 6: the forward-kinematics
    evaluation inside the loop runs the driver evaluator, which writes
    into the objects of the array that it was given. *)
Theorem solveIK_moves_bystander (atan2 : R -> R -> R) (target : Vector2) :
  buildChain ikHeap ikBones 4 (Some "b"%string) = ["b"%string; "a"%string] /\
  id (cells ikHeap 2%nat) = "c"%string /\
  exists h' out,
    solveIK atan2 3 ikHeap ikBones "b"%string target = Some (h', out) /\
    nth_error ikBones 2 = Some 2%nat /\
    nth_error out 2 = Some 2%nat /\
    x (cells ikHeap 2%nat) = 0 /\
    x (cells h' 2%nat) = 6.
Proof.
  split; [reflexivity|]. split; [reflexivity|].
  pose proof (solveIK_bystander_eval atan2 target) as H.
  destruct (solveIK atan2 3 ikHeap ikBones "b"%string target)
    as [[h' out]|]; [|contradiction].
  destruct H as [Hout Hx]. exists h', out.
  repeat split; trivial. rewrite Hx. lra.
Qed.

(** * Further properties *)

(** ** Angles and points *)

(** X21.  Degrees to radians and back is the identity, and so is the other way
    round. *)
Theorem radToDeg_degToRad (v : R) :
  radToDeg (degToRad v) = v /\ degToRad (radToDeg v) = v.
Proof.
  pose proof PI_neq0 as Hpi. unfold radToDeg, degToRad. split; field; exact Hpi.
Qed.

(** X22.  A rotation about [center] keeps the distance to [center]. *)
Theorem rotatePoint_distance (point center : Vector2) (angleRad : R) :
  let p' := rotatePoint point center angleRad in
  (vx p' - vx center) * (vx p' - vx center)
  + (vy p' - vy center) * (vy p' - vy center)
  = (vx point - vx center) * (vx point - vx center)
    + (vy point - vy center) * (vy point - vy center).
Proof.
  simpl. pose proof (sin2_cos2 angleRad) as H. unfold Rsqr in H.
  set (c := cos angleRad) in *. set (s := sin angleRad) in *.
  set (dx := vx point - vx center). set (dy := vy point - vy center).
  replace (vx center + dx * c - dy * s - vx center) with (dx * c - dy * s)
    by ring.
  replace (vy center + dx * s + dy * c - vy center) with (dx * s + dy * c)
    by ring.
  transitivity ((dx * dx + dy * dy) * (s * s + c * c)); [ring|].
  rewrite H. ring.
Qed.

(** X23.  Two rotations about the same centre are the rotation by the sum of the
    angles; the angle 0 moves nothing, and the opposite angle undoes a
    rotation. *)
Theorem rotatePoint_compose (point center : Vector2) (a b : R) :
  rotatePoint (rotatePoint point center a) center b
    = rotatePoint point center (a + b) /\
  rotatePoint point center 0 = point /\
  rotatePoint (rotatePoint point center a) center (- a) = point.
Proof.
  assert (Hsum : forall u v, rotatePoint (rotatePoint point center u) center v
                             = rotatePoint point center (u + v)).
  { intros u v. unfold rotatePoint. simpl. rewrite cos_plus, sin_plus.
    f_equal; ring. }
  assert (H0 : rotatePoint point center 0 = point).
  { unfold rotatePoint. rewrite cos_0, sin_0. destruct point as [px py].
    simpl. f_equal; ring. }
  repeat split; trivial.
  rewrite Hsum. replace (a + - a) with 0 by ring. exact H0.
Qed.

(** ** Easing *)

(** X14.  Every easing law maps 0 to 0 and 1 to 1, keeps the interval from 0 to
    1, and does not decrease on it. *)
Theorem getEasing_unit_interval (type : EasingType) :
  getEasing type 0 = 0 /\ getEasing type 1 = 1 /\
  (forall t, 0 <= t <= 1 -> 0 <= getEasing type t <= 1) /\
  (forall s t, 0 <= s -> s <= t -> t <= 1 ->
               getEasing type s <= getEasing type t).
Proof.
  repeat split; destruct type;
    unfold getEasing, easeLinear, easeIn, easeOut, easeInOut;
    intros; rcmp; try nra.
Qed.

Lemma getEasing_unit_interval_witness :
  getEasing EaseInOut (1 / 4) <= getEasing EaseInOut (3 / 4).
Proof.
  apply (proj2 (proj2 (proj2 (getEasing_unit_interval EaseInOut)))); lra.
Defined.

(** ** Interpolation *)

Lemma scanKeys_cases (keys : list Keyframe) (frame fallback : R) :
  scanKeys keys frame fallback = fallback \/
  exists k1 k2, In k1 keys /\ In k2 keys /\ time k1 <= frame < time k2 /\
                scanKeys keys frame fallback = interpolate k1 k2 frame.
Proof.
  induction keys as [|a l IH]; [now left|].
  destruct l as [|b l']; [now left|].
  rewrite scanKeys_step.
  destruct (Rgeb frame (time a)) eqn:E1; simpl.
  - destruct (Rltb frame (time b)) eqn:E2.
    + right. exists a, b. apply Rleb_true in E1. apply Rltb_true in E2.
      repeat split; [now left | right; now left | lra | lra].
    + destruct IH as [IH|(k1 & k2 & H1 & H2 & Ht & IH)]; [now left|].
      right. exists k1, k2. repeat split; try tauto; now right.
  - destruct IH as [IH|(k1 & k2 & H1 & H2 & Ht & IH)]; [now left|].
    right. exists k1, k2. repeat split; try tauto; now right.
Qed.

Lemma getEasing_range (type : EasingType) (t : R) :
  0 <= t <= 1 -> 0 <= getEasing type t <= 1.
Proof.
  intros Ht. destruct type;
    unfold getEasing, easeLinear, easeIn, easeOut, easeInOut; rcmp; nra.
Qed.

Lemma interpolate_between (k1 k2 : Keyframe) (frame : R) :
  time k1 <= frame < time k2 ->
  Rmin (value k1) (value k2) <= interpolate k1 k2 frame
    <= Rmax (value k1) (value k2).
Proof.
  intros Hf. unfold interpolate.
  set (t := (frame - time k1) / (time k2 - time k1)).
  assert (Ht : 0 <= t <= 1).
  { assert (Hd : 0 < time k2 - time k1) by lra.
    assert (Hm : t * (time k2 - time k1) = frame - time k1).
    { unfold t. field. lra. }
    split; nra. }
  pose proof (getEasing_range (easing k1) t Ht) as Hr.
  unfold Rmin, Rmax. destruct (Rle_dec (value k1) (value k2)); nra.
Qed.

(** X15.  The value of a track lies between the values of two of its keyframes:
    interpolation does not overshoot. *)
Theorem getInterpolatedValue_between (track : Track) (frame v : R) :
  getInterpolatedValue track frame = Some v ->
  exists k1 k2, In k1 (keyframes track) /\ In k2 (keyframes track) /\
                Rmin (value k1) (value k2) <= v <= Rmax (value k1) (value k2).
Proof.
  unfold getInterpolatedValue.
  pose proof (sortKeys_perm (keyframes track)) as Hperm.
  destruct (sortKeys (keyframes track)) as [|k0 rest] eqn:E; [discriminate|].
  assert (Hin : forall k, In k (k0 :: rest) -> In k (keyframes track)).
  { intros k. apply (Permutation_in _ Hperm). }
  assert (Hself : forall k, Rmin (value k) (value k) <= value k
                            <= Rmax (value k) (value k)).
  { intros k. unfold Rmin, Rmax. destruct (Rle_dec _ _); lra. }
  intros H.
  destruct (Rleb frame (time k0)).
  { injection H as <-. exists k0, k0. repeat split; try apply Hself;
      apply Hin; now left. }
  destruct (Rgeb frame (time (last (k0 :: rest) k0))).
  { injection H as <-. exists (last (k0 :: rest) k0), (last (k0 :: rest) k0).
    repeat split; try apply Hself; apply Hin, last_In. }
  injection H as <-.
  change (exists k1 k2, In k1 (keyframes track) /\ In k2 (keyframes track) /\
            Rmin (value k1) (value k2)
              <= scanKeys (k0 :: rest) frame (value k0)
              <= Rmax (value k1) (value k2)).
  destruct (scanKeys_cases (k0 :: rest) frame (value k0))
    as [->|(k1 & k2 & H1 & H2 & Ht & ->)].
  - exists k0, k0. repeat split; try apply Hself; apply Hin; now left.
  - exists k1, k2. split; [now apply Hin|]. split; [now apply Hin|].
    now apply interpolate_between.
Qed.

Lemma getInterpolatedValue_between_witness :
  exists k1 k2, In k1 (keyframes (twoKeys EaseOut)) /\
                In k2 (keyframes (twoKeys EaseOut)) /\
                Rmin (value k1) (value k2) <= 20 <= Rmax (value k1) (value k2).
Proof.
  apply (getInterpolatedValue_between (twoKeys EaseOut) 15 20).
  unfold getInterpolatedValue. rewrite twoKeys_sorted. simpl. rcmp.
Defined.

(** A keyframe whose time no other keyframe of the track has is hit
    exactly. *)
Lemma getInterpolatedValue_at_key (track : Track) (l1 l2 : list Keyframe)
    (k : Keyframe) :
  keyframes track = l1 ++ k :: l2 ->
  (forall k', In k' (l1 ++ l2) -> time k' <> time k) ->
  getInterpolatedValue track (time k) = Some (value k).
Proof.
  intros Ek Huniq.
  pose proof (sortKeys_perm (keyframes track)) as Hperm.
  pose proof (sortKeys_sorted (keyframes track)) as Hsorted.
  assert (Hk : In k (sortKeys (keyframes track))).
  { apply (Permutation_in _ (Permutation_sym Hperm)). rewrite Ek.
    apply in_or_app. right. now left. }
  apply in_split in Hk as (s1 & s2 & Es).
  rewrite Es, Ek in Hperm. apply Permutation_app_inv in Hperm.
  assert (Hne : forall k', In k' (s1 ++ s2) -> time k' <> time k).
  { intros k' Hk'. apply Huniq. now apply (Permutation_in _ Hperm). }
  rewrite Es in Hsorted.
  assert (Hlow : forall k', In k' s1 -> time k' < time k).
  { intros k' Hk'.
    assert (time k' <= time k).
    { clear -Hsorted Hk'. induction s1 as [|a s1 IH]; [destruct Hk'|].
      simpl in Hsorted. inversion Hsorted as [|? ? Hs Hall]; subst.
      destruct Hk' as [->|Hk']; [|now apply IH].
      rewrite Forall_forall in Hall. apply Hall.
      apply in_or_app. right. now left. }
    assert (time k' <> time k) by (apply Hne, in_or_app; now left). lra. }
  assert (Hhigh : forall k', In k' s2 -> time k < time k').
  { intros k' Hk'.
    assert (time k <= time k').
    { clear -Hsorted Hk'. induction s1 as [|a s1 IH].
      - simpl in Hsorted. inversion Hsorted as [|? ? Hs Hall]; subst.
        rewrite Forall_forall in Hall. now apply Hall.
      - simpl in Hsorted. inversion Hsorted; subst. now apply IH. }
    assert (time k' <> time k) by (apply Hne, in_or_app; now right). lra. }
  unfold getInterpolatedValue. rewrite Es.
  destruct s1 as [|a s1'].
  - simpl. unfold Rleb. destruct (Rle_dec (time k) (time k)); [reflexivity|lra].
  - change ((a :: s1') ++ k :: s2) with (a :: (s1' ++ k :: s2)).
    cbv beta iota.
    assert (Ha : time a < time k) by (apply Hlow; now left).
    destruct (Rleb (time k) (time a)) eqn:E1; [apply Rleb_true in E1; lra|].
    destruct s2 as [|b s2'].
    + assert (El : last (a :: s1' ++ [k]) a = k).
      { change (a :: s1' ++ [k]) with ((a :: s1') ++ [k]). apply last_last. }
      rewrite El. unfold Rgeb, Rleb.
      destruct (Rle_dec (time k) (time k)); [reflexivity|lra].
    + assert (Hb : time k < time b) by (apply Hhigh; now left).
      assert (Hl : time k < time (last (a :: s1' ++ k :: b :: s2') a)).
      { apply Rlt_le_trans with (time b); [exact Hb|].
        apply sorted_last_max; [exact Hsorted|].
        right. apply in_or_app. right. right. now left. }
      destruct (Rgeb (time k) (time (last (a :: s1' ++ k :: b :: s2') a)))
        eqn:E2; [apply Rleb_true in E2; lra|].
      f_equal.
      change (a :: s1' ++ k :: b :: s2') with ((a :: s1') ++ k :: b :: s2').
      rewrite scanKeys_between; [|exact Hsorted|lra].
      unfold interpolate. replace (time k - time k) with 0 by ring.
      unfold Rdiv. rewrite Rmult_0_l, getEasing_0. ring.
Qed.

Lemma NoDup_map_split {A B : Type} (f : A -> B) (l1 l2 : list A) (a : A) :
  NoDup (map f (l1 ++ a :: l2)) ->
  forall a', In a' (l1 ++ l2) -> f a' <> f a.
Proof.
  rewrite map_app. simpl. intros H a' Ha' E.
  apply NoDup_remove_2 in H. apply H. rewrite <- map_app, <- E.
  now apply in_map.
Qed.

(** X16.  When no two keyframes of a track share a time, the track takes the
    value of each keyframe at the time of the keyframe. *)
Theorem getInterpolatedValue_hits_keyframes (track : Track) (k : Keyframe) :
  NoDup (map time (keyframes track)) -> In k (keyframes track) ->
  getInterpolatedValue track (time k) = Some (value k).
Proof.
  intros Hnd Hk. apply in_split in Hk as (l1 & l2 & E).
  apply (getInterpolatedValue_at_key track l1 l2 k E).
  rewrite E in Hnd. now apply NoDup_map_split.
Qed.

Lemma getInterpolatedValue_hits_keyframes_witness :
  getInterpolatedValue (twoKeys EaseIn) 10 = Some 20.
Proof.
  apply (getInterpolatedValue_hits_keyframes (twoKeys EaseIn)
           (mkKeyframe 10 20 Linear)).
  - simpl. constructor; [intros [E|[]]; lra|].
    constructor; [intros []|constructor].
  - right. now left.
Defined.

(** ** Keyframe insertion *)

Lemma Reqb_true (a b : R) : Reqb a b = true <-> a = b.
Proof. unfold Reqb. destruct (Req_dec_T a b); split; intros; try easy. Qed.

Lemma putKeyframe_others (keyframes : list Keyframe) (currentFrame val : R)
    (k : Keyframe) :
  In k (filter (fun k => negb (Reqb (time k) currentFrame)) keyframes) ->
  time k <> currentFrame.
Proof.
  intros H. apply filter_In in H as [_ H]. apply negb_true_iff in H.
  intros E. apply Reqb_true in E. congruence.
Qed.

(** X24.  Putting a keyframe on a track whose keyframes have pairwise distinct
    times leaves them pairwise distinct, keeps every keyframe of another
    time, and adds none but the new one. *)
Theorem putKeyframe_distinct_times (keyframes : list Keyframe)
    (currentFrame val : R) :
  NoDup (map time keyframes) ->
  NoDup (map time (putKeyframe keyframes currentFrame val)) /\
  forall k, In k (putKeyframe keyframes currentFrame val) <->
            (In k keyframes /\ time k <> currentFrame) \/
            k = mkKeyframe currentFrame val Linear.
Proof.
  intros Hnd. unfold putKeyframe. split.
  - rewrite map_app. apply NoDup_app.
    + clear -Hnd. induction keyframes as [|a l IH]; simpl; [constructor|].
      inversion Hnd as [|? ? Hnot Hnd']; subst.
      destruct (negb (Reqb (time a) currentFrame)); [|now apply IH].
      simpl. constructor; [|now apply IH].
      intros Hin. apply Hnot. apply in_map_iff in Hin as (k & E & Hk).
      apply filter_In in Hk as [Hk _]. rewrite <- E. now apply in_map.
    + simpl. constructor; [intros []|constructor].
    + intros t Ht [<- | []]. apply in_map_iff in Ht as (k & E & Hk).
      now apply putKeyframe_others in Hk.
  - intros k. rewrite in_app_iff, filter_In, negb_true_iff. simpl.
    split.
    + intros [[Hk Hne] | [<- | []]]; [left|now right]. split; [exact Hk|].
      intros E. apply Reqb_true in E. congruence.
    + intros [[Hk Hne] | ->]; [left|right; now left]. split; [exact Hk|].
      destruct (Reqb (time k) currentFrame) eqn:E; [|reflexivity].
      apply Reqb_true in E. contradiction.
Qed.

Lemma putKeyframe_distinct_times_witness :
  NoDup (map time (putKeyframe (keyframes (twoKeys Linear)) 10 5)).
Proof.
  apply putKeyframe_distinct_times. simpl.
  constructor; [intros [E|[]]; lra|]. constructor; [intros []|constructor].
Defined.

Lemma putKeyframe_value (i : string) (p : TrackProp)
    (keyframes : list Keyframe) (currentFrame val : R) :
  getInterpolatedValue (mkTrack i p (putKeyframe keyframes currentFrame val))
                       currentFrame = Some val.
Proof.
  apply (getInterpolatedValue_at_key _
           (filter (fun k => negb (Reqb (time k) currentFrame)) keyframes) []
           (mkKeyframe currentFrame val Linear)); [reflexivity|].
  intros k Hk. rewrite app_nil_r in Hk. simpl.
  now apply putKeyframe_others in Hk.
Qed.

Lemma find_putInTrack (tracks : list Track) (i : string) (p : TrackProp)
    (currentFrame val : R) (t : Track) :
  find (isTrackOf i p) tracks = Some t ->
  find (isTrackOf i p) (putInTrack tracks i p currentFrame val)
    = Some (mkTrack (boneId t) (property t)
                    (putKeyframe (keyframes t) currentFrame val)).
Proof.
  induction tracks as [|a l IH]; simpl; [discriminate|].
  destruct (isTrackOf i p a) eqn:E.
  - intros H. injection H as <-. simpl.
    unfold isTrackOf in *. simpl. now rewrite E.
  - intros H. simpl. rewrite E. now apply IH.
Qed.

Lemma find_app_none {A : Type} (f : A -> bool) (l : list A) (a : A) :
  find f l = None -> find f (l ++ [a]) = if f a then Some a else None.
Proof.
  induction l as [|b l IH]; simpl; [reflexivity|].
  destruct (f b); [discriminate|exact IH].
Qed.

Lemma addKey_find_other (tracks : list Track) (i j : string)
    (p q : TrackProp) (currentFrame val : R) :
  i <> j \/ sameTrackProp p q = false ->
  find (isTrackOf j q) (addKey tracks i p currentFrame val)
    = find (isTrackOf j q) tracks.
Proof.
  intros Hne.
  assert (Hother : forall t, isTrackOf i p t = true -> isTrackOf j q t = false).
  { intros t Ht. unfold isTrackOf in *.
    apply andb_true_iff in Ht as [Hi Hp]. apply String.eqb_eq in Hi.
    destruct Hne as [Hne|Hne].
    - destruct (String.eqb_spec (boneId t) j); [congruence|reflexivity].
    - apply andb_false_iff. right.
      destruct (property t), p, q; simpl in *; congruence. }
  unfold addKey. destruct (find (isTrackOf i p) tracks) as [t|] eqn:E.
  - clear E. induction tracks as [|a l IH]; simpl; [reflexivity|].
    destruct (isTrackOf i p a) eqn:Ea.
    + simpl. rewrite (Hother a Ea).
      assert (Hn : isTrackOf j q
                     (mkTrack (boneId a) (property a)
                              (putKeyframe (keyframes a) currentFrame val))
                   = false) by (apply Hother; exact Ea).
      now rewrite Hn.
    + simpl. now rewrite IH.
  - clear E. induction tracks as [|a l IH]; simpl.
    + rewrite Hother; [reflexivity|]. unfold isTrackOf. simpl.
      rewrite String.eqb_refl. now destruct p.
    + destruct (isTrackOf j q a); [reflexivity|exact IH].
Qed.

Lemma addKey_value (tracks : list Track) (i : string) (p : TrackProp)
    (currentFrame val : R) :
  exists track,
    find (isTrackOf i p) (addKey tracks i p currentFrame val) = Some track /\
    getInterpolatedValue track currentFrame = Some val.
Proof.
  unfold addKey.
  destruct (find (isTrackOf i p) tracks) as [t|] eqn:E.
  - rewrite (find_putInTrack _ _ _ _ _ _ E). eexists. split; [reflexivity|].
    apply putKeyframe_value.
  - rewrite (find_app_none _ _ _ E). unfold isTrackOf at 1. simpl.
    rewrite String.eqb_refl. replace (sameTrackProp p p) with true
      by now destruct p.
    simpl. eexists. split; [reflexivity|]. apply putKeyframe_value.
Qed.

Lemma sampleProp_found (clip : AnimationClip) (frame : R) (bone : Bone)
    (p : TrackProp) (set : R -> Bone -> Bone) (newBone : Bone)
    (track : Track) (val : R) :
  find (isTrackOf (id bone) p) (tracks clip) = Some track ->
  getInterpolatedValue track frame = Some val ->
  sampleProp clip frame bone p set newBone = set val newBone.
Proof.
  intros Hf Hv. unfold sampleProp, findTrack.
  change (fun t : Track =>
            String.eqb (boneId t) (id bone) && sameTrackProp (property t) p)
    with (isTrackOf (id bone) p).
  now rewrite Hf, Hv.
Qed.

(** X25.  Keying a bone at a frame and sampling the clip at that frame gives the
    bone's rotation back, and the whole bone when it is a root. *)
Theorem addKeyframe_then_sample (clip : AnimationClip) (bone : Bone)
    (currentFrame : R) :
  rotation (sampleBone (addKeyframe clip bone currentFrame) currentFrame bone)
    = rotation bone /\
  (parentId bone = None ->
   sampleBone (addKeyframe clip bone currentFrame) currentFrame bone = bone).
Proof.
  set (T0 := tracks clip).
  set (T1 := addKey T0 (id bone) TRotation currentFrame (rotation bone)).
  set (T2 := addKey T1 (id bone) TX currentFrame (x bone)).
  set (T3 := addKey T2 (id bone) TY currentFrame (y bone)).
  destruct (addKey_value T0 (id bone) TRotation currentFrame (rotation bone))
    as (tr & Hr & Hrv). fold T1 in Hr.
  destruct (addKey_value T1 (id bone) TX currentFrame (x bone))
    as (tx & Hx & Hxv). fold T2 in Hx.
  destruct (addKey_value T2 (id bone) TY currentFrame (y bone))
    as (ty & Hy & Hyv). fold T3 in Hy.
  assert (Hr3 : find (isTrackOf (id bone) TRotation) T3 = Some tr).
  { unfold T3, T2. rewrite !addKey_find_other by (now right). exact Hr. }
  assert (Hx3 : find (isTrackOf (id bone) TX) T3 = Some tx).
  { unfold T3. rewrite addKey_find_other by (now right). exact Hx. }
  unfold addKeyframe. fold T0 T1 T2 T3.
  destruct (isRoot bone) eqn:Eroot.
  - assert (Hall : sampleBone (mkClip (duration clip) (fps clip) T3)
                              currentFrame bone = bone).
    { unfold sampleBone.
      rewrite (sampleProp_found _ _ _ TRotation _ _ tr (rotation bone));
        trivial.
      rewrite (sampleProp_found _ _ _ TX _ _ tx (x bone)); trivial.
      rewrite (sampleProp_found _ _ _ TY _ _ ty (y bone)); trivial.
      now destruct bone. }
    split; [now rewrite Hall | intros _; exact Hall].
  - split.
    + unfold sampleBone.
      rewrite (sampleProp_found _ _ _ TRotation _ _ tr (rotation bone));
        trivial.
      unfold sampleProp.
      destruct (findTrack _ bone TX) as [t1|];
        [destruct (getInterpolatedValue t1 currentFrame)|];
        (destruct (findTrack _ bone TY) as [t2|];
         [destruct (getInterpolatedValue t2 currentFrame)|]); reflexivity.
    + intros Hnull. unfold isRoot in Eroot. now rewrite Hnull in Eroot.
Qed.

(** X26.  [addKeyframe] for a bone leaves the tracks of the bones with another
    id as they are. *)
Theorem addKeyframe_other_bones (clip : AnimationClip) (bone other : Bone)
    (currentFrame : R) (p : TrackProp) :
  id other <> id bone ->
  findTrack (addKeyframe clip bone currentFrame) other p
    = findTrack clip other p.
Proof.
  intros Hne. unfold findTrack, addKeyframe.
  change (fun t : Track =>
            String.eqb (boneId t) (id other) && sameTrackProp (property t) p)
    with (isTrackOf (id other) p).
  simpl. destruct (isRoot bone).
  - rewrite !addKey_find_other by (left; congruence). reflexivity.
  - rewrite addKey_find_other by (left; congruence). reflexivity.
Qed.

Lemma addKeyframe_other_bones_witness :
  findTrack (addKeyframe overshootClip chainRoot 4) limitedBone TRotation
    = findTrack overshootClip limitedBone TRotation.
Proof. apply addKeyframe_other_bones. discriminate. Defined.

Lemma addKeyframe_then_sample_witness :
  sampleBone (addKeyframe overshootClip chainRoot 4) 4 chainRoot = chainRoot.
Proof.
  apply (proj2 (addKeyframe_then_sample overshootClip chainRoot 4)).
  reflexivity.
Defined.

(** ** Rotation clamp *)

Lemma clampTo_cases (v : R) (min max : option R) :
  (clampTo v min max = v /\
   (forall lo, min = Some lo -> lo <= v) /\
   (forall hi, max = Some hi -> v <= hi)) \/
  (exists lo, min = Some lo /\ clampTo v min max = lo /\ v < lo) \/
  (exists hi, max = Some hi /\ clampTo v min max = hi /\ hi < v /\
              forall lo, min = Some lo -> lo <= v).
Proof.
  unfold clampTo. destruct min as [lo|], max as [hi|].
  - destruct (Rltb v lo) eqn:E1.
    + apply Rltb_true in E1. right. left. now exists lo.
    + apply Rltb_false in E1. unfold Rgtb.
      destruct (Rltb hi v) eqn:E2.
      * apply Rltb_true in E2. right. right. exists hi.
        repeat split; trivial. intros l [= <-]. exact E1.
      * apply Rltb_false in E2. left. repeat split.
        -- intros l [= <-]. exact E1.
        -- intros l [= <-]. exact E2.
  - destruct (Rltb v lo) eqn:E1.
    + apply Rltb_true in E1. right. left. now exists lo.
    + apply Rltb_false in E1. left. repeat split; [|discriminate].
      intros l [= <-]. exact E1.
  - unfold Rgtb. destruct (Rltb hi v) eqn:E2.
    + apply Rltb_true in E2. right. right. exists hi.
      repeat split; trivial. discriminate.
    + apply Rltb_false in E2. left. repeat split; [discriminate|].
      intros l [= <-]. exact E2.
  - left. repeat split; discriminate.
Qed.

Lemma clamp_idempotent (val : R) (min max : option R) :
  (forall lo hi, min = Some lo -> max = Some hi -> lo <= hi) ->
  constrainRotation (constrainRotation val min max) min max
    = constrainRotation val min max.
Proof.
  intros Hord. unfold constrainRotation.
  pose proof (normalize_range val) as Hn. set (v := normalize val) in *.
  destruct (clampTo_cases v min max)
    as [(E & Hlo & Hhi)|[(lo & Emin & E & Hv)|(hi & Emax & E & Hv & Hlo)]];
    rewrite E.
  - rewrite (normalize_id v Hn). exact E.
  - pose proof (normalize_range lo) as Hnl.
    destruct (Rle_lt_dec lo 180) as [Hle|Hgt].
    + rewrite normalize_id by lra. subst min. unfold clampTo.
      destruct (Rltb lo lo) eqn:E1; [reflexivity|].
      destruct max as [hi|]; [|reflexivity].
      unfold Rgtb. destruct (Rltb hi lo) eqn:E2; [|reflexivity].
      apply Rltb_true in E2. specialize (Hord lo hi eq_refl eq_refl). lra.
    + subst min. unfold clampTo.
      destruct (Rltb (normalize lo) lo) eqn:E1; [reflexivity|].
      apply Rltb_false in E1. lra.
  - pose proof (normalize_range hi) as Hnh.
    assert (Hmax : forall w, hi < w -> (forall lo, min = Some lo -> lo <= w) ->
                             clampTo w min max = hi).
    { intros w Hw Hlow. subst max. unfold clampTo.
      destruct min as [lo|].
      - destruct (Rltb w lo) eqn:E1.
        + apply Rltb_true in E1. specialize (Hlow lo eq_refl). lra.
        + unfold Rgtb. destruct (Rltb hi w) eqn:E2; [reflexivity|].
          apply Rltb_false in E2. lra.
      - unfold Rgtb. destruct (Rltb hi w) eqn:E2; [reflexivity|].
        apply Rltb_false in E2. lra. }
    destruct (Rle_lt_dec (-180) hi) as [Hge|Hlt].
    + rewrite normalize_id by lra. subst max. unfold clampTo.
      destruct min as [lo|].
      * destruct (Rltb hi lo) eqn:E1.
        -- apply Rltb_true in E1. specialize (Hord lo hi eq_refl eq_refl).
           lra.
        -- unfold Rgtb. destruct (Rltb hi hi) eqn:E2; reflexivity.
      * unfold Rgtb. destruct (Rltb hi hi) eqn:E2; reflexivity.
    + apply Hmax; [lra|]. intros lo Elo.
      specialize (Hord lo hi Elo Emax). lra.
Qed.

(** X6.  Clamping a clamped rotation changes nothing, whenever the lower bound
    is not above the upper one; and a rotation between -180 and 180 that is
    within the bounds is returned as it is. *)
Theorem constrainRotation_idempotent (val : R) (min max : option R) :
  (forall lo hi, min = Some lo -> max = Some hi -> lo <= hi) ->
  constrainRotation (constrainRotation val min max) min max
    = constrainRotation val min max /\
  (-180 <= val <= 180 ->
   (forall lo, min = Some lo -> lo <= val) ->
   (forall hi, max = Some hi -> val <= hi) ->
   constrainRotation val min max = val).
Proof.
  intros Hord. split; [now apply clamp_idempotent|].
  intros Hv Hlo Hhi. unfold constrainRotation. rewrite normalize_id by exact Hv.
  destruct (clampTo_cases val min max)
    as [(E & _)|[(lo & Emin & _ & Hlt)|(hi & Emax & _ & Hgt & _)]].
  - exact E.
  - specialize (Hlo lo Emin). lra.
  - specialize (Hhi hi Emax). lra.
Qed.

Lemma constrainRotation_idempotent_witness :
  constrainRotation (constrainRotation 200 (Some (-10)) (Some 130))
                    (Some (-10)) (Some 130)
    = constrainRotation 200 (Some (-10)) (Some 130).
Proof.
  apply (proj1 (constrainRotation_idempotent 200 (Some (-10)) (Some 130)
                  ltac:(intros lo hi [= <-] [= <-]; lra))).
Defined.

(** ** Forward kinematics, further *)

(** The derived bone of a bone whose rotation already satisfies its
    constraint is the bone itself with the world transform added. *)
Lemma effectiveRotation_idempotent (b : Bone) :
  (forall limit lo hi, findLimit b = Some limit ->
     cmin limit = Some lo -> cmax limit = Some hi -> lo <= hi) ->
  effectiveRotation (setRotation (effectiveRotation b) b)
    = effectiveRotation b.
Proof.
  intros Hord. unfold effectiveRotation.
  change (findLimit (setRotation _ b)) with (findLimit b).
  destruct (findLimit b) as [limit|] eqn:E; [|reflexivity].
  simpl. apply clamp_idempotent.
  intros lo hi. now apply Hord.
Qed.

(** X7.  The segment from [worldStart] to [worldEnd] of every derived bone has
    the length of the bone; a bone of length 0 ends where it starts. *)
Theorem calculateFK_segment_length (fuel : nat) (h : heap) (bones : list ref)
    (h' : heap) (result : list DerivedBone) (d : DerivedBone) :
  calculateFK fuel h bones = Some (h', result) -> In d result ->
  (vx (worldEnd d) - vx (worldStart d)) * (vx (worldEnd d) - vx (worldStart d))
  + (vy (worldEnd d) - vy (worldStart d)) * (vy (worldEnd d) - vy (worldStart d))
  = length (base d) * length (base d) /\
  (length (base d) = 0 -> worldEnd d = worldStart d).
Proof.
  intros H Hd. unfold calculateFK in H.
  destruct (evaluateDrivers h bones) as [h1 driven].
  destruct (traverse fuel _) as [res|] eqn:Ht; [|discriminate].
  injection H as <- <-.
  destruct (traverse_In _ _ _ _ Ht Hd) as (bone & _ & Hder).
  assert (E : exists parent, d = deriveBone bone parent).
  { destruct Hder as [[_ ->]|(p & _ & _ & ->)]; eauto. }
  destruct E as (parent & ->). unfold deriveBone. simpl.
  set (a := degToRad _). pose proof (sin2_cos2 a) as Hsc. unfold Rsqr in Hsc.
  split.
  - transitivity (length bone * length bone * (sin a * sin a + cos a * cos a));
      [ring|]. rewrite Hsc. ring.
  - intros ->. f_equal; ring.
Qed.

Lemma calculateFK_segment_length_witness :
  (vx (worldEnd (deriveBone chainRoot None))
   - vx (worldStart (deriveBone chainRoot None)))
  * (vx (worldEnd (deriveBone chainRoot None))
     - vx (worldStart (deriveBone chainRoot None)))
  + (vy (worldEnd (deriveBone chainRoot None))
     - vy (worldStart (deriveBone chainRoot None)))
    * (vy (worldEnd (deriveBone chainRoot None))
       - vy (worldStart (deriveBone chainRoot None)))
  = length (base (deriveBone chainRoot None))
    * length (base (deriveBone chainRoot None)).
Proof.
  apply (calculateFK_segment_length 2 (heapOf chainRoot [chainChild])
           [0%nat; 1%nat] (heapOf chainRoot [chainChild])
           [deriveBone chainRoot None;
            deriveBone chainChild (Some (deriveBone chainRoot None))]
           (deriveBone chainRoot None) eq_refl (or_introl eq_refl)).
Defined.

(** ** Driver evaluator, further *)

(** X1.  The driver evaluator returns the references it was given and writes
    nothing but the rotation, x and y of an object: id, parent, length,
    flags, constraints and drivers of every object are as before, and no
    object is created. *)
Theorem evaluateDrivers_writes_transform_only (h : heap) (bones : list ref)
    (r : ref) :
  let (h', updatedBones) := evaluateDrivers h bones in
  updatedBones = bones /\ next h' = next h /\
  id (cells h' r) = id (cells h r) /\
  parentId (cells h' r) = parentId (cells h r) /\
  length (cells h' r) = length (cells h r) /\
  locked (cells h' r) = locked (cells h r) /\
  visible (cells h' r) = visible (cells h r) /\
  constraints (cells h' r) = constraints (cells h r) /\
  drivers (cells h' r) = drivers (cells h r).
Proof.
  pose proof (evaluateDrivers_shape h bones r) as Hs.
  pose proof (evaluateDrivers_next h bones) as Hn.
  destruct (evaluateDrivers h bones) as [h' updatedBones] eqn:E.
  assert (updatedBones = bones) by (unfold evaluateDrivers in E; congruence).
  simpl in Hs, Hn. split; [assumption|]. split; [assumption|]. exact Hs.
Qed.

Lemma fold_applyDriver_other bones target ds : forall h r,
  r <> target ->
  cells (fold_left (applyDriver bones target) ds h) r = cells h r.
Proof.
  induction ds as [|d ds IH]; intros h r Hne; simpl; [reflexivity|].
  rewrite IH by assumption. now apply applyDriver_other.
Qed.

Lemma driveBone_driverless bones h target r :
  drivers (cells h r) = [] -> cells (driveBone bones h target) r = cells h r.
Proof.
  intros Hd. unfold driveBone. destruct (Nat.eq_dec r target) as [->|Hne].
  - now rewrite Hd.
  - now apply fold_applyDriver_other.
Qed.

Lemma driverPass_driverless bones h r :
  drivers (cells h r) = [] -> cells (driverPass bones h) r = cells h r.
Proof.
  unfold driverPass. generalize bones at 2. intros ts. revert h.
  induction ts as [|t ts IH]; intros h Hd; simpl; [reflexivity|].
  rewrite IH.
  - now apply driveBone_driverless.
  - rewrite driveBone_driverless; assumption.
Qed.

(** X2.  An object that carries no driver is left as it is, whatever the other
    bones of the array carry. *)
Theorem evaluateDrivers_driverless_untouched (h : heap) (bones : list ref)
    (r : ref) :
  drivers (cells h r) = [] ->
  cells (fst (evaluateDrivers h bones)) r = cells h r.
Proof.
  intros Hd. simpl. rewrite driverPass_driverless.
  - now apply driverPass_driverless.
  - rewrite driverPass_driverless; assumption.
Qed.

Lemma evaluateDrivers_driverless_untouched_witness :
  cells (fst (evaluateDrivers (heapOf sourceBone [drivenBone])
                              [0%nat; 1%nat])) 0%nat
    = cells (heapOf sourceBone [drivenBone]) 0%nat.
Proof. apply evaluateDrivers_driverless_untouched. reflexivity. Defined.

Lemma findRef_none (h : heap) (bones : list ref) (i : string) :
  (forall s, In s bones -> id (cells h s) <> i) -> findRef h bones i = None.
Proof.
  intros H. unfold findRef. induction bones as [|a l IH]; simpl; [reflexivity|].
  destruct (String.eqb_spec (id (cells h a)) i) as [E|_].
  - exfalso. apply (H a); [now left | exact E].
  - apply IH. intros s Hs. apply H. now right.
Qed.

Lemma driverPass_missing_sources (bones : list ref) (h : heap) :
  (forall r d, In r bones -> In d (drivers (cells h r)) ->
     findRef h bones (sourceBoneId d) = None) ->
  driverPass bones h = h.
Proof.
  intros H. unfold driverPass.
  assert (G : forall ts, incl ts bones -> fold_left (driveBone bones) ts h = h).
  { induction ts as [|t ts IH]; intros Hincl; simpl; [reflexivity|].
    assert (Ht : driveBone bones h t = h).
    { unfold driveBone.
      assert (F : forall ds, incl ds (drivers (cells h t)) ->
                  fold_left (applyDriver bones t) ds h = h).
      { induction ds as [|d ds IHd]; intros Hd; simpl; [reflexivity|].
        unfold applyDriver at 2.
        rewrite (H t d); [|apply Hincl; now left|apply Hd; now left].
        apply IHd. intros d' Hd'. apply Hd. now right. }
      apply F, incl_refl. }
    rewrite Ht. apply IH. intros t' Ht'. apply Hincl. now right. }
  apply G, incl_refl.
Qed.

Lemma missing_sources_none (h : heap) (bones : list ref) :
  (forall r d s, In r bones -> In d (drivers (cells h r)) -> In s bones ->
     id (cells h s) <> sourceBoneId d) ->
  forall r d, In r bones -> In d (drivers (cells h r)) ->
    findRef h bones (sourceBoneId d) = None.
Proof.
  intros H r d Hr Hd. apply findRef_none. intros s Hs. now apply (H r d s).
Qed.

(** X3.  A driver whose source id no bone of the array has does nothing: when
    that is so for every driver of every bone of the array, and in
    particular when no bone has a driver, the store is returned as it
    was. *)
Theorem evaluateDrivers_missing_sources (h : heap) (bones : list ref) :
  (forall r d s, In r bones -> In d (drivers (cells h r)) -> In s bones ->
     id (cells h s) <> sourceBoneId d) ->
  evaluateDrivers h bones = (h, bones).
Proof.
  intros H. unfold evaluateDrivers.
  pose proof (missing_sources_none h bones H) as Hnone.
  rewrite (driverPass_missing_sources bones h Hnone).
  now rewrite (driverPass_missing_sources bones h Hnone).
Qed.

Lemma evaluateDrivers_missing_sources_witness :
  evaluateDrivers (heapOf drivenBone []) [0%nat]
    = (heapOf drivenBone [], [0%nat]).
Proof.
  apply evaluateDrivers_missing_sources.
  intros r d s [<-|[]] [<-|[]] [<-|[]]. simpl. discriminate.
Defined.

Lemma findRef_same_ids (g h : heap) (bones : list ref) (i : string) :
  (forall r, id (cells g r) = id (cells h r)) ->
  findRef g bones i = findRef h bones i.
Proof.
  intros H. unfold findRef. induction bones as [|a l IH]; simpl; [reflexivity|].
  now rewrite H, IH.
Qed.

Lemma readProp_writeProp (p : BoneProp) (v : R) (b : Bone) :
  readProp p (writeProp p v b) = v.
Proof. now destruct p. Qed.

(** X4.  The affine law of a driver: a bone of the array with a single driver,
    whose source is in the array and carries no driver itself, ends with
    its driven property equal to the source property times the factor plus
    the offset, and the source is not changed. *)
Theorem evaluateDrivers_affine (h : heap) (bones : list ref) (r s : ref)
    (d : Driver) :
  In r bones -> drivers (cells h r) = [d] ->
  findRef h bones (sourceBoneId d) = Some s ->
  drivers (cells h s) = [] ->
  let h' := fst (evaluateDrivers h bones) in
  readProp (driverProperty d) (cells h' r)
    = readProp (sourceProperty d) (cells h s) * factor d + offset d /\
  cells h' s = cells h s.
Proof.
  intros Hr Hd Hs Hsd h'.
  set (V := readProp (sourceProperty d) (cells h s) * factor d + offset d).
  set (P := fun g : heap =>
              (forall r0, sameShape (cells g r0) (cells h r0)) /\
              cells g s = cells h s).
  set (Q := fun g : heap => readProp (driverProperty d) (cells g r) = V).
  assert (Hstep : forall g t, P g ->
            P (driveBone bones g t) /\
            (t = r \/ Q g -> Q (driveBone bones g t))).
  { intros g t [Hsh Hsrc]. split; [split|].
    - intros r0. eapply sameShape_trans; [apply driveBone_shape | apply Hsh].
    - rewrite driveBone_driverless; [exact Hsrc|].
      destruct (Hsh s) as (_&_&_&_&_&_&->). exact Hsd.
    - intros [->|Hq].
      + unfold Q, driveBone.
        destruct (Hsh r) as (_&_&_&_&_&_&->). rewrite Hd. simpl.
        unfold applyDriver.
        rewrite (findRef_same_ids g h) by (intros r0; apply Hsh).
        rewrite Hs, cells_hwrite, Nat.eqb_refl, readProp_writeProp, Hsrc.
        reflexivity.
      + unfold Q. destruct (Nat.eq_dec t r) as [->|Hne].
        * unfold driveBone.
          destruct (Hsh r) as (_&_&_&_&_&_&->). rewrite Hd. simpl.
          unfold applyDriver.
          rewrite (findRef_same_ids g h) by (intros r0; apply Hsh).
          rewrite Hs, cells_hwrite, Nat.eqb_refl, readProp_writeProp, Hsrc.
          reflexivity.
        * unfold driveBone. rewrite fold_applyDriver_other by congruence.
          exact Hq. }
  assert (Hfold : forall ts g, P g -> In r ts \/ Q g ->
            P (fold_left (driveBone bones) ts g) /\
            Q (fold_left (driveBone bones) ts g)).
  { induction ts as [|t ts IH]; intros g Hp Hq; simpl.
    - split; [exact Hp|]. destruct Hq as [[]|Hq]; exact Hq.
    - destruct (Hstep g t Hp) as [Hp' Hq']. apply IH; [exact Hp'|].
      destruct Hq as [[->|Hin]|Hq]; [right|now left|right]; apply Hq'; auto. }
  assert (P0 : P h) by (split; [intros; apply sameShape_refl | reflexivity]).
  destruct (Hfold bones h P0 (or_introl Hr)) as [P1 Q1].
  destruct (Hfold bones _ P1 (or_intror Q1)) as [[_ P2] Q2].
  split; [exact Q2 | exact P2].
Qed.

Lemma evaluateDrivers_affine_witness :
  readProp PRotation
    (cells (fst (evaluateDrivers (heapOf sourceBone [drivenBone])
                                 [0%nat; 1%nat])) 1%nat)
    = readProp PRotation (cells (heapOf sourceBone [drivenBone]) 0%nat)
      * (1 / 2) + 10.
Proof.
  apply (evaluateDrivers_affine (heapOf sourceBone [drivenBone])
           [0%nat; 1%nat] 1%nat 0%nat halfDriver);
    [right; now left | reflexivity | reflexivity | reflexivity].
Defined.

Lemma ReachableId_In (ds : list Bone) (i : string) :
  ReachableId ds i -> exists b, In b ds /\ id b = i.
Proof. intros [b Hb _|c pid Hc _ _]; eauto. Qed.

(** X8.  Every bone that is reached from a root along [parentId] links has a
    derived bone in the result; when the ids are pairwise distinct and
    every bone is reached, the result has exactly one derived bone for each
    bone. *)
Theorem calculateFK_complete (fuel : nat) (h : heap) (bones : list ref)
    (h' : heap) (result : list DerivedBone) :
  calculateFK fuel h bones = Some (h', result) ->
  (forall r, In r bones ->
     ReachableId (map (cells h) bones) (id (cells h r)) ->
     exists d, In d result /\ derivedId d = id (cells h r)) /\
  (NoDup (map (fun r => id (cells h r)) bones) ->
   (forall r, In r bones ->
      ReachableId (map (cells h) bones) (id (cells h r))) ->
   List.length result = List.length bones).
Proof.
  intros H.
  pose proof (driven_ids h bones) as Hids.
  pose proof (evaluateDrivers_shape h bones) as Hsh.
  unfold calculateFK in H.
  destruct (evaluateDrivers h bones) as [h1 driven] eqn:He.
  assert (driven = bones) by (unfold evaluateDrivers in He; congruence).
  subst driven. simpl in Hids, Hsh.
  destruct (traverse fuel _) as [res|] eqn:Ht; [|discriminate].
  injection H as <- <-.
  assert (Hto : forall i, ReachableId (map (cells h) bones) i ->
                          ReachableId (map (cells h1) bones) i).
  { intros i. apply ReachableId_shape. intros b Hb.
    apply in_map_iff in Hb as (r & <- & Hr).
    exists (cells h1 r). split; [now apply in_map|].
    destruct (Hsh r) as (E1 & E2 & _). now split. }
  assert (Hall : forall r, In r bones ->
            ReachableId (map (cells h) bones) (id (cells h r)) ->
            exists d, In d res /\ derivedId d = id (cells h r)).
  { intros r Hr Hreach. apply (traverse_complete _ _ _ Ht). now apply Hto. }
  split; [exact Hall|].
  intros Hnd Hevery.
  assert (Hnd1 : NoDup (map id (map (cells h1) bones))) by now rewrite Hids.
  destruct (traverse_paths _ Hnd1 _ _ Ht) as [Hnodup Hreach].
  rewrite <- (length_map derivedId res).
  rewrite <- (length_map (fun r => id (cells h r)) bones).
  apply Nat.le_antisymm; apply NoDup_incl_length; trivial.
  - intros i Hi. apply in_map_iff in Hi as (d & <- & Hd).
    destruct (ReachableId_In _ _ (Hreach d Hd)) as (b & Hb & <-).
    rewrite <- Hids. now apply in_map.
  - intros i Hi. apply in_map_iff in Hi as (r & <- & Hr).
    destruct (Hall r Hr (Hevery r Hr)) as (d & Hd & <-).
    now apply in_map.
Qed.

Lemma calculateFK_complete_witness :
  exists d,
    In d [deriveBone chainRoot None;
          deriveBone chainChild (Some (deriveBone chainRoot None))] /\
    derivedId d = "child"%string.
Proof.
  apply (proj1 (calculateFK_complete 2 (heapOf chainRoot [chainChild])
                  [0%nat; 1%nat] (heapOf chainRoot [chainChild])
                  [deriveBone chainRoot None;
                   deriveBone chainChild (Some (deriveBone chainRoot None))]
                  eq_refl) 1%nat).
  - right. now left.
  - apply (ReachableId_child _ chainChild "root"%string).
    + right. now left.
    + reflexivity.
    + apply (ReachableId_root _ chainRoot); [now left | reflexivity].
Defined.

(** X9.  When no driver of a bone of the array has its source in the array, and
    so when there are no drivers, [calculateFK] leaves the store as it was:
    a second call on the same array then returns the same list. *)
Theorem calculateFK_store_unchanged (fuel : nat) (h : heap)
    (bones : list ref) (h' : heap) (result : list DerivedBone) :
  (forall r d s, In r bones -> In d (drivers (cells h r)) -> In s bones ->
     id (cells h s) <> sourceBoneId d) ->
  calculateFK fuel h bones = Some (h', result) ->
  h' = h /\ calculateFK fuel h' bones = Some (h', result).
Proof.
  intros Hno H.
  pose proof (missing_sources_none h bones Hno) as Hnone.
  unfold calculateFK, evaluateDrivers in H.
  rewrite !(driverPass_missing_sources bones h Hnone) in H.
  destruct (traverse fuel _) as [res|] eqn:Ht; [|discriminate].
  injection H as <- <-. split; [reflexivity|].
  unfold calculateFK, evaluateDrivers.
  now rewrite !(driverPass_missing_sources bones h Hnone), Ht.
Qed.

Lemma calculateFK_store_unchanged_witness :
  heapOf chainRoot [chainChild] = heapOf chainRoot [chainChild] /\
  calculateFK 2 (heapOf chainRoot [chainChild]) [0%nat; 1%nat]
    = Some (heapOf chainRoot [chainChild],
            [deriveBone chainRoot None;
             deriveBone chainChild (Some (deriveBone chainRoot None))]).
Proof.
  apply (calculateFK_store_unchanged 2 (heapOf chainRoot [chainChild])
           [0%nat; 1%nat]).
  - intros r d s [<-|[<-|[]]] []. 
  - reflexivity.
Defined.

(** ** Inverse kinematics, further *)

Lemma sameButRotation_refl (a : Bone) : sameButRotation a a.
Proof. now destruct a. Qed.

Lemma sameButRotation_set (a b : Bone) (v : R) :
  sameButRotation a b -> sameButRotation a (setRotation v b).
Proof. unfold sameButRotation. intros ->. reflexivity. Qed.

Lemma buildChain_length h bones (n : nat) : forall c,
  (List.length (buildChain h bones n c) <= n)%nat.
Proof.
  induction n as [|n IH]; intros c; simpl; [lia|].
  destruct c as [c|]; simpl; [|lia].
  destruct (truthy c); simpl; [|lia].
  specialize (IH (match findRef h bones c with
                  | Some r => parentId (cells h r)
                  | None => None
                  end)). lia.
Qed.

Lemma Forall2_compose {A B C : Type} (P : A -> B -> Prop) (Q : B -> C -> Prop)
    (T : A -> C -> Prop) (l1 : list A) :
  (forall a b c, P a b -> Q b c -> T a c) ->
  forall l2 l3, Forall2 P l1 l2 -> Forall2 Q l2 l3 -> Forall2 T l1 l3.
Proof.
  intros H. induction l1 as [|a l1 IH]; intros l2 l3 H12 H23.
  - inversion H12; subst. inversion H23; subst. constructor.
  - inversion H12; subst. inversion H23; subst. constructor; eauto.
Qed.

Lemma Forall2_same {A : Type} (P : A -> A -> Prop) (l : list A) :
  (forall a, In a l -> P a a) -> Forall2 P l l.
Proof.
  induction l as [|a l IH]; intros H; constructor.
  - apply H. now left.
  - apply IH. intros b Hb. apply H. now right.
Qed.

(** What the rewriting [map] does to the array and to the store: every
    element is kept, or replaced by a fresh object that copies an unlocked
    bone with the id [boneId] but for its rotation. *)
Lemma mapRotate_spec (boneId : string) (angleDiff : R) (bones : list ref) :
  forall h h' out,
  Forall (fun r => (r < next h)%nat) bones ->
  mapRotate h bones boneId angleDiff = (h', out) ->
  (next h <= next h')%nat /\
  (forall r, (r < next h)%nat -> cells h' r = cells h r) /\
  Forall2 (fun r r' =>
             (r' < next h')%nat /\
             ((r' = r /\ cells h' r' = cells h r) \/
              (id (cells h r) = boneId /\ locked (cells h r) = false /\
               cells h' r'
                 = setRotation (ikRotation (cells h r) angleDiff) (cells h r))))
          bones out.
Proof.
  induction bones as [|r rs IH]; intros h h' out Hwf H; simpl in H.
  - injection H as <- <-. split; [lia|]. split; [reflexivity|]. constructor.
  - inversion Hwf as [|? ? Hr Hrs]; subst.
    destruct (String.eqb (id (cells h r)) boneId && negb (locked (cells h r)))
      eqn:Ecase.
    + destruct (mapRotate _ rs boneId angleDiff) as [h2 rs'] eqn:Hm.
      injection H as <- <-.
      apply IH in Hm as (Hle & Hframe & Hall).
      2:{ simpl. apply Forall_impl with (2 := Hrs). intros; lia. }
      simpl in Hle, Hframe.
      assert (Hold : forall r0, (r0 < next h)%nat -> cells h2 r0 = cells h r0).
      { intros r0 Hr0. rewrite Hframe by lia.
        destruct (Nat.eqb_spec r0 (next h)); [lia|reflexivity]. }
      apply andb_true_iff in Ecase as [Eid Elock].
      apply String.eqb_eq in Eid. apply negb_true_iff in Elock.
      split; [lia|]. split; [exact Hold|].
      constructor.
      * split; [lia|]. right. repeat split; trivial.
        rewrite Hframe by lia. now rewrite Nat.eqb_refl.
      * clear -Hall Hrs. induction Hall as [|a b l l' Hab _ IHl];
          constructor.
        -- inversion Hrs as [|? ? Ha _]; subst.
           simpl in Hab.
           assert (E : (if Nat.eqb a (next h) then
                          setRotation (ikRotation (cells h r) angleDiff)
                                      (cells h r)
                        else cells h a) = cells h a).
           { destruct (Nat.eqb_spec a (next h)); [lia|reflexivity]. }
           rewrite E in Hab. exact Hab.
        -- apply IHl. now inversion Hrs.
    + destruct (mapRotate h rs boneId angleDiff) as [h2 rs'] eqn:Hm.
      injection H as <- <-.
      apply IH in Hm as (Hle & Hframe & Hall); [|exact Hrs].
      split; [exact Hle|]. split; [exact Hframe|].
      constructor; [|exact Hall].
      split; [lia|]. left. split; [reflexivity|]. now apply Hframe.
Qed.

Lemma calculateFK_no_drivers (fuel : nat) (h : heap) (bones : list ref)
    (h' : heap) (derived : list DerivedBone) :
  (forall r, In r bones -> drivers (cells h r) = []) ->
  calculateFK fuel h bones = Some (h', derived) -> h' = h.
Proof.
  intros Hnd H. unfold calculateFK, evaluateDrivers in H.
  assert (Hnone : forall r d, In r bones -> In d (drivers (cells h r)) ->
            findRef h bones (sourceBoneId d) = None).
  { intros r d Hr Hd. rewrite (Hnd r Hr) in Hd. destruct Hd. }
  rewrite !(driverPass_missing_sources bones h Hnone) in H.
  destruct (traverse fuel _); [|discriminate]. congruence.
Qed.

Lemma ikRotation_range (b : Bone) (angleDiff : R) (limit : Constraint)
    (lo hi : R) :
  findLimit b = Some limit -> cmin limit = Some lo -> cmax limit = Some hi ->
  lo <= hi -> lo <= ikRotation b angleDiff <= hi.
Proof.
  intros Hl Hmin Hmax Hle. unfold ikRotation.
  rewrite Hl, Hmin, Hmax. unfold constrainRotation. now apply clampTo_range.
Qed.

Lemma In_concat_repeat {A : Type} (l : list A) (n : nat) (a : A) :
  In a (List.concat (repeat l n)) -> In a l.
Proof.
  induction n as [|n IH]; simpl; [tauto|].
  intros H. apply in_app_or in H as [H|H]; auto.
Qed.

Lemma Forall2_impl_Forall {A B : Type} (P T : A -> B -> Prop) (Q : A -> Prop)
    (l : list A) (l' : list B) :
  (forall a b, Q a -> P a b -> T a b) ->
  Forall Q l -> Forall2 P l l' -> Forall2 T l l'.
Proof.
  intros H HQ HP. induction HP as [|a b l l' Hab _ IH]; constructor.
  - apply H; [now inversion HQ | exact Hab].
  - apply IH. now inversion HQ.
Qed.

Section IKProperties.

Variable atan2 : R -> R -> R.
Variable h : heap.
Variable bones : list ref.
Variable chain : list string.

Hypothesis no_drivers : forall r, In r bones -> drivers (cells h r) = [].
Hypothesis allocated : Forall (fun r => (r < next h)%nat) bones.

Lemma ikInvariant_init : ikInvariant h bones chain (h, bones).
Proof.
  split; [simpl; lia|]. split; [reflexivity|]. simpl.
  apply Forall2_same. intros r Hr. rewrite Forall_forall in allocated.
  split; [now apply allocated|]. split; [apply sameButRotation_refl|].
  split; [reflexivity|now left].
Qed.

Lemma ikInvariant_no_drivers (st : heap * list ref) :
  ikInvariant h bones chain st ->
  forall rk, In rk (snd st) -> drivers (cells (fst st) rk) = [].
Proof.
  intros (_ & _ & Hall) rk Hrk.
  assert (G : exists r, In r bones /\
                        sameButRotation (cells h r) (cells (fst st) rk)).
  { clear -Hall Hrk. induction Hall as [|a b l l' Hab _ IH]; [destruct Hrk|].
    destruct Hrk as [<-|Hrk].
    - exists a. split; [now left|tauto].
    - destruct (IH Hrk) as (r & Hr & Hs). exists r. split; [now right|exact Hs]. }
  destruct G as (r & Hr & Hs). rewrite Hs. simpl. now apply no_drivers.
Qed.

Lemma ikStep_invariant (fuel : nat) (effectorId : string) (target : Vector2)
    (st st' : heap * list ref) (boneId : string) :
  In boneId chain -> ikInvariant h bones chain st ->
  ikStep atan2 fuel effectorId target st boneId = Some st' ->
  ikInvariant h bones chain st'.
Proof.
  intros Hchain Hinv H.
  pose proof (ikInvariant_no_drivers st Hinv) as Hnd.
  destruct st as [hk bk]. simpl in Hnd. unfold ikStep in H.
  destruct (calculateFK fuel hk bk) as [[h1 derived]|] eqn:Hfk; [|discriminate].
  assert (E1 : h1 = hk).
  { now apply (calculateFK_no_drivers fuel hk bk h1 derived). }
  subst h1.
  destruct (findDerived derived effectorId) as [effector|];
    [|injection H as <-; exact Hinv].
  destruct (findDerived derived boneId) as [currentDerived|];
    [|injection H as <-; exact Hinv].
  injection H as H.
  destruct Hinv as (Hle & Hframe & Hall). simpl in Hle, Hframe, Hall.
  assert (Hwf : Forall (fun r => (r < next hk)%nat) bk).
  { clear -Hall. induction Hall as [|a b l l' Hab _ IH]; constructor; tauto. }
  destruct st' as [h2 bk'].
  destruct (mapRotate_spec _ _ _ _ _ _ Hwf H) as (Hle2 & Hframe2 & Hall2).
  split; [simpl; lia|]. split.
  - simpl. intros r Hr. rewrite Hframe2 by lia. now apply Hframe.
  - simpl. apply (Forall2_compose _ _ _ bones) with (2 := Hall) (3 := Hall2).
    intros r rk rk' (Hrk & Hsame & Hfrozen & Hrot)
           (Hrk' & [[-> Ecell]|(Eid & Elock & Ecell)]).
    + rewrite Ecell. repeat split; trivial.
    + assert (Eid' : id (cells h r) = boneId) by (rewrite Hsame in Eid; exact Eid).
      assert (Elock' : locked (cells h r) = false)
        by (rewrite Hsame in Elock; exact Elock).
      split; [exact Hrk'|]. rewrite Ecell. split.
      * now apply sameButRotation_set.
      * split.
        -- intros [Hnot|Hlocked]; [exfalso; apply Hnot; now rewrite Eid'|].
           congruence.
        -- right. intros limit lo hi Hl Hmin Hmax Hlohi. simpl.
           apply (ikRotation_range _ _ limit); trivial.
           rewrite Hsame. exact Hl.
Qed.

Lemma ikSteps_invariant (fuel : nat) (effectorId : string) (target : Vector2)
    (ids : list string) : forall st st',
  (forall i, In i ids -> In i chain) -> ikInvariant h bones chain st ->
  ikSteps atan2 fuel effectorId target st ids = Some st' ->
  ikInvariant h bones chain st'.
Proof.
  induction ids as [|i ids IH]; intros st st' Hids Hinv H; simpl in H.
  - now injection H as <-.
  - destruct (ikStep atan2 fuel effectorId target st i) as [st1|] eqn:E;
      [|discriminate].
    apply (IH st1 st'); trivial.
    + intros j Hj. apply Hids. now right.
    + apply (ikStep_invariant fuel effectorId target st st1 i); trivial.
      apply Hids. now left.
Qed.

End IKProperties.

(** X11.  When no bone of the array carries a driver, [solveIK] works on a chain
    of at most 4 ids, leaves every object of its argument as it was, and
    returns for each bone that bone or a copy of it that differs from it at
    most in rotation; the bone itself is returned when its id is not on the
    chain or it is locked. *)
Theorem solveIK_frame (atan2 : R -> R -> R) (fuel : nat) (h : heap)
    (bones : list ref) (effectorId : string) (target : Vector2)
    (h' : heap) (out : list ref) :
  (forall r, In r bones -> drivers (cells h r) = []) ->
  Forall (fun r => (r < next h)%nat) bones ->
  solveIK atan2 fuel h bones effectorId target = Some (h', out) ->
  let chain := buildChain h bones 4 (Some effectorId) in
  (List.length chain <= 4)%nat /\
  (forall r, (r < next h)%nat -> cells h' r = cells h r) /\
  Forall2 (fun r r' =>
             cells h' r' = setRotation (rotation (cells h' r')) (cells h r) /\
             (~ In (id (cells h r)) chain \/ locked (cells h r) = true ->
              r' = r /\ cells h' r' = cells h r))
          bones out.
Proof.
  intros Hnd Hwf H chain. split; [apply buildChain_length|].
  unfold solveIK in H. fold chain in H.
  apply (ikSteps_invariant atan2 h bones chain Hnd) in H.
  - destruct H as (_ & Hframe & Hall). simpl in Hframe, Hall.
    split; [exact Hframe|].
    refine (Forall2_impl_Forall _ _ _ _ _ _ Hwf Hall).
    intros r r' Hr (_ & Hs & Hfrozen & _). split; [exact Hs|].
    intros Hf. specialize (Hfrozen Hf). subst r'. split; [reflexivity|].
    now apply Hframe.
  - intros i Hi. now apply In_concat_repeat in Hi.
  - now apply ikInvariant_init.
Qed.


Lemma solveIK_chain_returns (atan2 : R -> R -> R) (target : Vector2) :
  match solveIK atan2 2 (heapOf chainRoot [chainChild]) [0%nat; 1%nat]
                "child"%string target with
  | Some _ => True
  | None => False
  end.
Proof. vm_compute. exact I. Qed.

Lemma chain_no_drivers (r : ref) :
  In r [0%nat; 1%nat] -> drivers (cells (heapOf chainRoot [chainChild]) r) = [].
Proof. intros [<-|[<-|[]]]; reflexivity. Qed.

Lemma chain_allocated :
  Forall (fun r => (r < next (heapOf chainRoot [chainChild]))%nat)
         [0%nat; 1%nat].
Proof. repeat constructor. Qed.

Lemma solveIK_frame_witness :
  exists h' out,
    solveIK (fun _ _ => 0) 2 (heapOf chainRoot [chainChild]) [0%nat; 1%nat]
            "child"%string (mkVector2 0 0) = Some (h', out) /\
    forall r, (r < next (heapOf chainRoot [chainChild]))%nat ->
              cells h' r = cells (heapOf chainRoot [chainChild]) r.
Proof.
  destruct (solveIK (fun _ _ => 0) 2 (heapOf chainRoot [chainChild])
                    [0%nat; 1%nat] "child"%string (mkVector2 0 0))
    as [[h' out]|] eqn:E.
  - exists h', out. split; [reflexivity|].
    apply (solveIK_frame _ _ _ _ _ _ _ _ chain_no_drivers chain_allocated E).
  - exfalso.
    pose proof (solveIK_chain_returns (fun _ _ => 0) (mkVector2 0 0)) as X.
    rewrite E in X. exact X.
Defined.


Section IKUnknownEffector.

Variable atan2 : R -> R -> R.
Variable h : heap.
Variable bones : list ref.
Variable effectorId : string.
Hypothesis unknown : forall r, In r bones -> id (cells h r) <> effectorId.

Lemma ikStep_unknown (fuel : nat) (target : Vector2) (hk : heap)
    (st' : heap * list ref) (boneId : string) :
  (forall r, id (cells hk r) = id (cells h r)) ->
  ikStep atan2 fuel effectorId target (hk, bones) boneId = Some st' ->
  snd st' = bones /\ forall r, id (cells (fst st') r) = id (cells h r).
Proof.
  intros Hids H. unfold ikStep in H.
  pose proof (evaluateDrivers_shape hk bones) as Hsh.
  destruct (calculateFK fuel hk bones) as [[h1 derived]|] eqn:Hfk;
    [|discriminate].
  unfold calculateFK in Hfk.
  destruct (evaluateDrivers hk bones) as [h2 driven] eqn:He.
  assert (driven = bones) by (unfold evaluateDrivers in He; congruence).
  subst driven. simpl in Hsh.
  destruct (traverse fuel _) as [res|] eqn:Ht; [|discriminate].
  injection Hfk as <- <-.
  assert (Hnone : findDerived res effectorId = None).
  { unfold findDerived. destruct (find _ res) as [d|] eqn:Ef; [|reflexivity].
    exfalso. apply find_some in Ef as [Hd Eid]. apply String.eqb_eq in Eid.
    destruct (traverse_In _ _ _ _ Ht Hd) as (bone & Hb & Hder).
    apply in_map_iff in Hb as (r & <- & Hr).
    apply (unknown r Hr). rewrite <- Hids.
    destruct (Hsh r) as [<- _]. rewrite <- Eid.
    destruct Hder as [[_ ->]|(p & _ & _ & ->)]; reflexivity. }
  rewrite Hnone in H. injection H as H. subst st'. simpl.
  split; [reflexivity|].
  intros r. destruct (Hsh r) as [-> _]. apply Hids.
Qed.

Lemma ikSteps_unknown (fuel : nat) (target : Vector2) (ids : list string) :
  forall hk st',
  (forall r, id (cells hk r) = id (cells h r)) ->
  ikSteps atan2 fuel effectorId target (hk, bones) ids = Some st' ->
  snd st' = bones.
Proof.
  induction ids as [|i ids IH]; intros hk st' Hids H; cbn [ikSteps] in H.
  - now injection H as <-.
  - destruct (ikStep atan2 fuel effectorId target (hk, bones) i)
      as [[h1 b1]|] eqn:E; [|discriminate].
    destruct (ikStep_unknown _ _ _ _ _ Hids E) as [Hb Hids1].
    simpl in Hb, Hids1. subst b1. now apply (IH h1).
Qed.

End IKUnknownEffector.

(** X13.  When no bone of the array has the id of the effector, [solveIK] returns
    the array it was given, element for element; with the empty string as
    effector id it returns at once and the store is as it was. *)
Theorem solveIK_unknown_effector (atan2 : R -> R -> R) (fuel : nat)
    (h : heap) (bones : list ref) (target : Vector2) :
  (forall effectorId h' out,
     (forall r, In r bones -> id (cells h r) <> effectorId) ->
     solveIK atan2 fuel h bones effectorId target = Some (h', out) ->
     out = bones) /\
  solveIK atan2 fuel h bones EmptyString target = Some (h, bones).
Proof.
  split; [|reflexivity].
  intros effectorId h' out Hunknown H. unfold solveIK in H.
  now apply (ikSteps_unknown atan2 h bones effectorId Hunknown) in H.
Qed.

Lemma solveIK_unknown_effector_witness :
  exists h' out,
    solveIK (fun _ _ => 0) 2 (heapOf chainRoot [chainChild]) [0%nat; 1%nat]
            "tail"%string (mkVector2 0 0) = Some (h', out) /\
    out = [0%nat; 1%nat].
Proof.
  assert (X : match solveIK (fun _ _ => 0) 2 (heapOf chainRoot [chainChild])
                            [0%nat; 1%nat] "tail"%string (mkVector2 0 0) with
              | Some _ => True
              | None => False
              end) by (vm_compute; exact I).
  destruct (solveIK (fun _ _ => 0) 2 (heapOf chainRoot [chainChild])
                    [0%nat; 1%nat] "tail"%string (mkVector2 0 0))
    as [[h' out]|] eqn:E; [|destruct X].
  exists h', out. split; [reflexivity|].
  apply (proj1 (solveIK_unknown_effector (fun _ _ => 0) 2
                  (heapOf chainRoot [chainChild]) [0%nat; 1%nat]
                  (mkVector2 0 0)) "tail"%string h' out); [|exact E].
  intros r [<-|[<-|[]]]; discriminate.
Defined.

(** ** Animation sampler, further *)

(** The steps of [applyAnimation] when it returns. *)
Lemma applyAnimation_steps {Sprite : Type} (fuel : nat) (h : heap)
    (bones : list ref) (sprites : list Sprite) (clip : AnimationClip)
    (frame : R) (finalBones : list Bone) (newSprites : list Sprite) :
  applyAnimation fuel h bones sprites clip frame
    = Some (finalBones, newSprites) ->
  exists h1 newBones h2 derived,
    map (cells h1) newBones
      = map (fun r => sampleBone clip frame (cells h r)) bones /\
    h2 = fst (evaluateDrivers h1 newBones) /\
    traverse fuel (map (cells h2) newBones) = Some derived /\
    finalBones = map (reconcile h2 derived) newBones /\
    newSprites = sprites.
Proof.
  intros H. unfold applyAnimation in H.
  destruct (allocAll h _) as [h1 newBones] eqn:Ha.
  destruct (allocAll_spec _ _ _ _ Ha) as (_ & _ & Hmap).
  destruct (calculateFK fuel h1 newBones) as [[h2 derived]|] eqn:Hfk;
    [|discriminate].
  injection H as <- <-. unfold calculateFK in Hfk.
  destruct (evaluateDrivers h1 newBones) as [h2' driven] eqn:He.
  assert (driven = newBones) by (unfold evaluateDrivers in He; congruence).
  subst driven.
  destruct (traverse fuel _) as [res|] eqn:Ht; [|discriminate].
  injection Hfk as <- <-.
  exists h1, newBones, h2', res. repeat split; trivial.
  - now rewrite He.
  - apply map_id.
Qed.

Lemma map_eq_nth {A B C : Type} (f : A -> C) (g : B -> C) (l : list A)
    (l' : list B) (i : nat) (b : B) :
  map f l = map g l' -> nth_error l' i = Some b ->
  exists a, nth_error l i = Some a /\ f a = g b.
Proof.
  intros E Hb.
  assert (H : nth_error (map f l) i = Some (g b)).
  { rewrite E, nth_error_map, Hb. reflexivity. }
  rewrite nth_error_map in H. destruct (nth_error l i) as [a|]; [|discriminate].
  exists a. split; [reflexivity|]. now injection H.
Qed.

(** X18.  What [applyAnimation] returns for a bone that carries no driver, when
    the ids are pairwise distinct: the sampled clone of the bone, with its
    rotation constrained when the traversal reaches the bone.  The clone
    itself is returned when the bone has no [LIMIT_ROTATION] constraint,
    and the bone as it was when it has no track with a keyframe either. *)
Theorem applyAnimation_driverless {Sprite : Type} (fuel : nat) (h : heap)
    (bones : list ref) (sprites : list Sprite) (clip : AnimationClip)
    (frame : R) (finalBones : list Bone) (newSprites : list Sprite)
    (i : nat) (r : ref) :
  applyAnimation fuel h bones sprites clip frame
    = Some (finalBones, newSprites) ->
  NoDup (map (fun r => id (cells h r)) bones) ->
  nth_error bones i = Some r ->
  drivers (cells h r) = [] ->
  let sampled := sampleBone clip frame (cells h r) in
  exists final,
    nth_error finalBones i = Some final /\
    (final = sampled \/
     final = setRotation (effectiveRotation sampled) sampled) /\
    (ReachableId (map (cells h) bones) (id (cells h r)) ->
     final = setRotation (effectiveRotation sampled) sampled) /\
    (findLimit (cells h r) = None -> final = sampled) /\
    (findLimit (cells h r) = None -> sampled = cells h r ->
     final = cells h r).
Proof.
  intros H Hnd Hi Hdrv sampled.
  destruct (applyAnimation_steps _ _ _ _ _ _ _ _ H)
    as (h1 & newBones & h2 & res & Hmap & Eh2 & Ht & -> & _).
  destruct (map_eq_nth _ _ _ _ i r Hmap Hi) as (r' & Hi' & Hcell).
  fold sampled in Hcell.
  pose proof (sampleBone_shape clip frame (cells h r)) as Hshape.
  fold sampled in Hshape.
  assert (Hsd : drivers sampled = []).
  { destruct Hshape as (_&_&_&_&_&_&->). exact Hdrv. }
  assert (Hc2 : cells h2 r' = sampled).
  { rewrite Eh2. simpl. rewrite driverPass_driverless.
    - rewrite driverPass_driverless; rewrite Hcell; trivial.
    - rewrite driverPass_driverless; rewrite Hcell; trivial. }
  (* ids of the driven clones *)
  assert (Hidmap : map id (map (cells h2) newBones)
                   = map (fun r => id (cells h r)) bones).
  { rewrite Eh2, driven_ids.
    transitivity (map id (map (cells h1) newBones));
      [now rewrite map_map|].
    rewrite Hmap, map_map. apply map_ext. intros a.
    now destruct (sampleBone_shape clip frame (cells h a)) as [-> _]. }
  assert (Hnd2 : NoDup (map id (map (cells h2) newBones)))
    by now rewrite Hidmap.
  assert (Hder : forall d, findDerived res (id sampled) = Some d ->
            base d = setRotation (effectiveRotation sampled) sampled).
  { intros d Hf. unfold findDerived in Hf. apply find_some in Hf as [Hd Eid].
    apply String.eqb_eq in Eid.
    destruct (traverse_In _ _ _ _ Ht Hd) as (bone & Hb & Hcase).
    assert (bone = sampled).
    { rewrite <- Hc2. apply (same_id _ Hnd2); trivial.
      - apply in_map. now apply (nth_error_In _ i).
      - rewrite Hc2, <- Eid.
        destruct Hcase as [[_ ->]|(p & _ & _ & ->)]; reflexivity. }
    subst bone. destruct Hcase as [[_ ->]|(p & _ & _ & ->)]; reflexivity. }
  assert (Hfinal : reconcile h2 res r' = sampled \/
                   reconcile h2 res r'
                     = setRotation (effectiveRotation sampled) sampled).
  { unfold reconcile. rewrite Hc2.
    destruct (findDerived res (id sampled)) as [d|] eqn:Hf; [|now left].
    right. rewrite (Hder d eq_refl). now destruct sampled. }
  assert (Hnolimit : findLimit (cells h r) = None ->
            setRotation (effectiveRotation sampled) sampled = sampled).
  { intros Hl. unfold effectiveRotation.
    rewrite (findLimit_shape _ _ Hshape), Hl. now destruct sampled. }
  exists (reconcile h2 res r').
  split; [rewrite nth_error_map, Hi'; reflexivity|].
  split; [exact Hfinal|]. split; [|split].
  - intros Hreach.
    assert (Hreach' : ReachableId (map (cells h2) newBones) (id sampled)).
    { replace (id sampled) with (id (cells h r))
        by (now destruct Hshape as [-> _]).
      apply (ReachableId_shape (map (cells h) bones)); [|exact Hreach].
      intros b Hb. apply In_nth_error in Hb as (j & Hj).
      rewrite nth_error_map in Hj.
      destruct (nth_error bones j) as [rj|] eqn:Hrj; [|discriminate].
      injection Hj as <-.
      destruct (map_eq_nth _ _ _ _ j rj Hmap Hrj) as (rj' & Hj' & Hcj).
      exists (cells h2 rj'). split.
      - apply in_map. now apply (nth_error_In _ j).
      - rewrite Eh2.
        destruct (evaluateDrivers_shape h1 newBones rj') as (E1 & E2 & _).
        rewrite E1, E2, Hcj.
        destruct (sampleBone_shape clip frame (cells h rj)) as (F1 & F2 & _).
        now split. }
    destruct (findDerived_some res _ (traverse_complete _ _ _ Ht _ Hreach'))
      as (d & Hfind & _).
    unfold reconcile. rewrite Hc2, Hfind, (Hder d Hfind). now destruct sampled.
  - intros Hl. destruct Hfinal as [E|E]; [exact E|].
    now rewrite E, Hnolimit.
  - intros Hl Hs. rewrite <- Hs. destruct Hfinal as [E|E]; [exact E|].
    now rewrite E, Hnolimit.
Qed.

Lemma applyAnimation_driverless_witness :
  exists final,
    nth_error [setRotation (effectiveRotation (setRotation 200 limitedBone))
                           limitedBone] 0 = Some final /\
    final = setRotation
              (effectiveRotation (sampleBone overshootClip 0 limitedBone))
              (sampleBone overshootClip 0 limitedBone).
Proof.
  assert (H : applyAnimation 1 (heapOf limitedBone []) [0%nat] (@nil unit)
                overshootClip 0
              = Some ([setRotation
                         (effectiveRotation (setRotation 200 limitedBone))
                         limitedBone], [])).
  { unfold applyAnimation. simpl map.
    rewrite sampleBone_overshoot by reflexivity. reflexivity. }
  destruct (applyAnimation_driverless _ _ _ _ _ _ _ _ 0%nat 0%nat H)
    as (final & Hnth & _ & Hreach & _).
  - simpl. repeat constructor. intros [].
  - reflexivity.
  - reflexivity.
  - exists final. split; [exact Hnth|]. apply Hreach.
    apply (ReachableId_root [limitedBone] limitedBone
             (or_introl eq_refl) eq_refl).
Defined.

(** ** Motion path *)

(** The ids of the derived bones are ids of bones of the array. *)
Lemma calculateFK_ids (fuel : nat) (h : heap) (bones : list ref) (h' : heap)
    (result : list DerivedBone) (d : DerivedBone) :
  calculateFK fuel h bones = Some (h', result) -> In d result ->
  exists r, In r bones /\ id (cells h r) = derivedId d.
Proof.
  intros H Hd. unfold calculateFK in H.
  pose proof (evaluateDrivers_shape h bones) as Hsh.
  destruct (evaluateDrivers h bones) as [h1 driven] eqn:He.
  assert (driven = bones) by (unfold evaluateDrivers in He; congruence).
  subst driven. simpl in Hsh.
  destruct (traverse fuel _) as [res|] eqn:Ht; [|discriminate].
  injection H as <- <-.
  destruct (traverse_In _ _ _ _ Ht Hd) as (bone & Hb & Hcase).
  apply in_map_iff in Hb as (r & <- & Hr). exists r. split; [exact Hr|].
  destruct (Hsh r) as [<- _].
  destruct Hcase as [[_ ->]|(p & _ & _ & ->)]; reflexivity.
Qed.

(** The bones that [applyAnimation] returns have the ids of the bones of
    its argument, in order. *)
Lemma applyAnimation_ids {Sprite : Type} (fuel : nat) (h : heap)
    (bones : list ref) (sprites : list Sprite) (clip : AnimationClip)
    (frame : R) (finalBones : list Bone) (newSprites : list Sprite) :
  applyAnimation fuel h bones sprites clip frame
    = Some (finalBones, newSprites) ->
  map id finalBones = map (fun r => id (cells h r)) bones.
Proof.
  intros H.
  destruct (applyAnimation_steps _ _ _ _ _ _ _ _ H)
    as (h1 & newBones & h2 & res & Hmap & Eh2 & Ht & -> & _).
  rewrite map_map.
  transitivity (map id (map (cells h1) newBones)).
  - rewrite map_map. apply map_ext. intros r.
    destruct (reconcile_shape h2 res r) as [-> _]. rewrite Eh2.
    now destruct (evaluateDrivers_shape h1 newBones r) as [-> _].
  - rewrite Hmap, map_map. apply map_ext. intros r.
    now destruct (sampleBone_shape clip frame (cells h r)) as [-> _].
Qed.

Lemma motionPathFrom_bound {Sprite : Type} (loopFuel : nat) :
  forall (fuel : nat) (h : heap) (bones : list ref) (sprites : list Sprite)
         (clip : AnimationClip) (targetBoneId : string) (f : R)
         (points : list Vector2),
  motionPathFrom loopFuel fuel h bones sprites clip targetBoneId f
    = Some points ->
  (duration clip < f -> points = []) /\
  (f <= duration clip + 2 ->
   INR (List.length points) <= (duration clip - f) / 2 + 1) /\
  ((forall r, In r bones -> id (cells h r) <> targetBoneId) -> points = []).
Proof.
  induction loopFuel as [|n IH];
    intros fuel h bones sprites clip targetBoneId f points H;
    [discriminate|].
  simpl in H. destruct (Rleb f (duration clip)) eqn:Ef.
  - apply Rleb_true in Ef.
    destruct (applyAnimation fuel h bones sprites clip f)
      as [[stateBones ns]|] eqn:Ha; [|discriminate].
    destruct (allocAll h stateBones) as [h1 stateRefs] eqn:Hal.
    destruct (calculateFK fuel h1 stateRefs) as [[h2 derived]|] eqn:Hfk;
      [|discriminate].
    destruct (motionPathFrom n fuel h bones sprites clip targetBoneId (f + 2))
      as [rest|] eqn:Hrest; [|discriminate].
    destruct (IH _ _ _ _ _ _ _ _ Hrest) as (_ & Hlen & Hnone).
    assert (Hlen' : INR (List.length rest) <= (duration clip - f) / 2)
      by (specialize (Hlen ltac:(lra)); lra).
    split; [intros; lra|]. split.
    + intros _.
      destruct (findDerived derived targetBoneId); injection H as <-.
      * change (List.length (worldStart d :: rest))
          with (S (List.length rest)). rewrite S_INR. lra.
      * lra.
    + intros Hmiss. specialize (Hnone Hmiss). subst rest.
      destruct (findDerived derived targetBoneId) as [d|] eqn:Hf;
        [|now injection H as <-].
      exfalso. unfold findDerived in Hf. apply find_some in Hf as [Hd Eid].
      apply String.eqb_eq in Eid.
      destruct (calculateFK_ids _ _ _ _ _ _ Hfk Hd) as (r' & Hr' & Hid).
      destruct (allocAll_spec _ _ _ _ Hal) as (_ & _ & Hmap).
      assert (Hin : In (id (cells h1 r')) (map id stateBones)).
      { rewrite <- Hmap, map_map.
        now apply (in_map (fun r => id (cells h1 r))). }
      rewrite (applyAnimation_ids _ _ _ _ _ _ _ _ Ha) in Hin.
      apply in_map_iff in Hin as (r & E & Hr).
      apply (Hmiss r Hr). unfold derivedId in Hid. congruence.
  - apply Rleb_false in Ef. injection H as <-.
    split; [reflexivity|]. split; [|reflexivity].
    intros Hf. simpl. lra.
Qed.

(** X19.  The motion path is empty when the clip has a negative duration and
    when no bone has the id of the target; otherwise it has at most one
    point for each of the frames 0, 2, 4, ... up to the duration. *)
Theorem calculateMotionPath_points {Sprite : Type} (loopFuel fuel : nat)
    (h : heap) (bones : list ref) (sprites : list Sprite)
    (clip : AnimationClip) (targetBoneId : string) (points : list Vector2) :
  calculateMotionPath loopFuel fuel h bones sprites clip targetBoneId
    = Some points ->
  (duration clip < 0 -> points = []) /\
  (0 <= duration clip ->
   INR (List.length points) <= duration clip / 2 + 1) /\
  ((forall r, In r bones -> id (cells h r) <> targetBoneId) -> points = []).
Proof.
  intros H. unfold calculateMotionPath in H.
  destruct (motionPathFrom_bound _ _ _ _ _ _ _ _ _ H) as (H1 & H2 & H3).
  split; [exact H1|]. split; [|exact H3].
  intros Hd. specialize (H2 ltac:(lra)). lra.
Qed.

Lemma calculateFK_returns (fuel : nat) (h : heap) (bones : list ref) :
  NoDup (map (fun r => id (cells h r)) bones) ->
  (List.length bones <= fuel)%nat ->
  exists h' result, calculateFK fuel h bones = Some (h', result).
Proof.
  intros Hnd Hlen. unfold calculateFK.
  pose proof (driven_ids h bones) as Hids.
  destruct (evaluateDrivers h bones) as [h' driven] eqn:He.
  assert (driven = bones) by (unfold evaluateDrivers in He; congruence).
  subst driven. simpl in Hids.
  destruct (traverse_terminates (map (cells h') bones)) with (fuel := fuel)
    as (res & ->); [now rewrite Hids | now rewrite length_map|].
  now exists h', res.
Qed.

Lemma allocAll_length (bs : list Bone) (h h' : heap) (rs : list ref) :
  allocAll h bs = (h', rs) -> List.length rs = List.length bs.
Proof.
  intros H. destruct (allocAll_spec _ _ _ _ H) as (_ & _ & Hmap).
  apply (f_equal (@List.length Bone)) in Hmap. now rewrite length_map in Hmap.
Qed.

Lemma applyAnimation_returns {Sprite : Type} (fuel : nat) (h : heap)
    (bones : list ref) (sprites : list Sprite) (clip : AnimationClip)
    (frame : R) :
  NoDup (map (fun r => id (cells h r)) bones) ->
  (List.length bones <= fuel)%nat ->
  exists finalBones,
    applyAnimation fuel h bones sprites clip frame
      = Some (finalBones, sprites).
Proof.
  intros Hnd Hlen. unfold applyAnimation.
  destruct (allocAll h _) as [h1 newBones] eqn:Ha.
  destruct (allocAll_spec _ _ _ _ Ha) as (_ & _ & Hmap).
  pose proof (allocAll_length _ _ _ _ Ha) as Hl. rewrite length_map in Hl.
  destruct (calculateFK_returns fuel h1 newBones) as (h2 & res & ->).
  - replace (map (fun r => id (cells h1 r)) newBones)
      with (map id (map (cells h1) newBones)) by now rewrite map_map.
    rewrite Hmap, map_map.
    erewrite map_ext; [exact Hnd|]. intros r. simpl.
    now destruct (sampleBone_shape clip frame (cells h r)) as [-> _].
  - lia.
  - rewrite map_id. eauto.
Qed.

Lemma motionPathFrom_returns {Sprite : Type} (fuel : nat) (h : heap)
    (bones : list ref) (sprites : list Sprite) (clip : AnimationClip)
    (targetBoneId : string) :
  NoDup (map (fun r => id (cells h r)) bones) ->
  (List.length bones <= fuel)%nat ->
  forall (n : nat) (f : R), duration clip < f + 2 * INR n ->
  exists points,
    motionPathFrom (S n) fuel h bones sprites clip targetBoneId f
      = Some points.
Proof.
  intros Hnd Hlen. induction n as [|n IH]; intros f Hf.
  - simpl in Hf. simpl. destruct (Rleb f (duration clip)) eqn:E;
      [apply Rleb_true in E; lra | eauto].
  - rewrite S_INR in Hf.
    change (motionPathFrom (S (S n)) fuel h bones sprites clip targetBoneId f)
      with (if Rleb f (duration clip) then
              match applyAnimation fuel h bones sprites clip f with
              | None => None
              | Some (stateBones, _) =>
                  let (h1, stateRefs) := allocAll h stateBones in
                  match calculateFK fuel h1 stateRefs with
                  | None => None
                  | Some (_, derived) =>
                      match motionPathFrom (S n) fuel h bones sprites clip
                                           targetBoneId (f + 2) with
                      | None => None
                      | Some points =>
                          match findDerived derived targetBoneId with
                          | Some target => Some (worldStart target :: points)
                          | None => Some points
                          end
                      end
                  end
              end
            else Some []).
    destruct (Rleb f (duration clip)); [|eauto].
    destruct (applyAnimation_returns fuel h bones sprites clip f Hnd Hlen)
      as (stateBones & Ha).
    rewrite Ha.
    destruct (allocAll h stateBones) as [h1 stateRefs] eqn:Hal.
    destruct (allocAll_spec _ _ _ _ Hal) as (_ & _ & Hmap).
    destruct (calculateFK_returns fuel h1 stateRefs) as (h2 & derived & ->).
    + replace (map (fun r => id (cells h1 r)) stateRefs)
        with (map id (map (cells h1) stateRefs)) by now rewrite map_map.
      now rewrite Hmap, (applyAnimation_ids _ _ _ _ _ _ _ _ Ha).
    + rewrite (allocAll_length _ _ _ _ Hal).
      pose proof (applyAnimation_ids _ _ _ _ _ _ _ _ Ha) as Hids.
      apply (f_equal (@List.length string)) in Hids.
      rewrite !length_map in Hids. lia.
    + destruct (IH (f + 2)) as (rest & ->); [lra|].
      destruct (findDerived derived targetBoneId); eauto.
Qed.


Lemma chain_ids_distinct :
  NoDup (map (fun r => id (cells (heapOf chainRoot [chainChild]) r))
             [0%nat; 1%nat]).
Proof. simpl. repeat constructor; simpl; intuition discriminate. Qed.


Lemma calculateMotionPath_points_witness :
  exists points,
    calculateMotionPath 7 2 (heapOf chainRoot [chainChild]) [0%nat; 1%nat]
                        (@nil unit) overshootClip "tail"%string
      = Some points /\
    points = [].
Proof.
  destruct (motionPathFrom_returns 2 (heapOf chainRoot [chainChild])
              [0%nat; 1%nat] (@nil unit) overshootClip "tail"%string
              chain_ids_distinct ltac:(simpl; lia) 6%nat 0)
    as (points & H).
  - simpl. lra.
  - exists points. split; [exact H|].
    apply (calculateMotionPath_points _ _ _ _ _ _ _ _ H).
    intros r [<-|[<-|[]]]; discriminate.
Defined.

(** ** Order of the keyframes *)

Lemma sorted_unique (l1 : list Keyframe) : forall l2,
  StronglySorted timeLe l1 -> StronglySorted timeLe l2 ->
  Permutation l1 l2 -> NoDup (map time l1) -> l1 = l2.
Proof.
  induction l1 as [|a l1 IH]; intros l2 H1 H2 Hp Hnd.
  - apply Permutation_nil in Hp. now subst.
  - destruct l2 as [|b l2].
    { apply Permutation_sym, Permutation_nil in Hp. discriminate. }
    inversion H1 as [|? ? Hs1 Hall1]; subst.
    inversion H2 as [|? ? Hs2 Hall2]; subst.
    rewrite Forall_forall in Hall1, Hall2.
    assert (Hab : a = b).
    { assert (Hb : In b (a :: l1)).
      { apply (Permutation_in _ (Permutation_sym Hp)). now left. }
      assert (Ha : In a (b :: l2)).
      { apply (Permutation_in _ Hp). now left. }
      destruct Hb as [E|Hb]; [exact E|].
      destruct Ha as [E|Ha]; [now symmetry|].
      exfalso.
      assert (time a <= time b) by now apply Hall1.
      assert (time b <= time a) by now apply Hall2.
      simpl in Hnd. inversion Hnd as [|? ? Hnot _]; subst.
      apply Hnot. replace (time a) with (time b) by lra.
      now apply in_map. }
    subst b. f_equal. apply IH; trivial.
    + now apply Permutation_cons_inv in Hp.
    + simpl in Hnd. now inversion Hnd.
Qed.

(** X17.  The order in which a track holds its keyframes does not matter when
    their times are pairwise distinct: two tracks with the same keyframes
    in different orders have the same value at every frame. *)
Theorem getInterpolatedValue_order (t1 t2 : Track) (frame : R) :
  Permutation (keyframes t1) (keyframes t2) ->
  NoDup (map time (keyframes t1)) ->
  getInterpolatedValue t1 frame = getInterpolatedValue t2 frame.
Proof.
  intros Hp Hnd. unfold getInterpolatedValue.
  assert (E : sortKeys (keyframes t1) = sortKeys (keyframes t2)).
  { apply sorted_unique; try apply sortKeys_sorted.
    - eapply Permutation_trans; [apply sortKeys_perm|].
      eapply Permutation_trans; [exact Hp|].
      apply Permutation_sym, sortKeys_perm.
    - apply (Permutation_NoDup
               (Permutation_map time
                  (Permutation_sym (sortKeys_perm (keyframes t1)))) Hnd). }
  now rewrite E.
Qed.

Lemma getInterpolatedValue_order_witness :
  getInterpolatedValue (twoKeys EaseIn) 3
    = getInterpolatedValue
        (mkTrack "arm"%string TRotation
                 [mkKeyframe 10 20 Linear; mkKeyframe 0 10 EaseIn]) 3.
Proof.
  apply getInterpolatedValue_order.
  - apply perm_swap.
  - simpl. constructor; [intros [E|[]]; lra|].
    constructor; [intros []|constructor].
Defined.

(** ** Constrained output *)

(** X10.  The local rotation that a derived bone carries already satisfies the
    bone's constraint: constraining it again gives the same rotation,
    whenever the bounds of the constraint are ordered. *)
Theorem calculateFK_rotation_constrained (fuel : nat) (h : heap)
    (bones : list ref) (h' : heap) (result : list DerivedBone)
    (d : DerivedBone) :
  calculateFK fuel h bones = Some (h', result) -> In d result ->
  (forall limit lo hi, findLimit (base d) = Some limit ->
     cmin limit = Some lo -> cmax limit = Some hi -> lo <= hi) ->
  effectiveRotation (base d) = rotation (base d).
Proof.
  intros H Hd Hord. unfold calculateFK in H.
  destruct (evaluateDrivers h bones) as [h1 driven].
  destruct (traverse fuel _) as [res|] eqn:Ht; [|discriminate].
  injection H as <- <-.
  destruct (traverse_In _ _ _ _ Ht Hd) as (bone & _ & Hcase).
  assert (E : base d = setRotation (effectiveRotation bone) bone)
    by (destruct Hcase as [[_ ->]|(p & _ & _ & ->)]; reflexivity).
  rewrite E in *. simpl.
  apply effectiveRotation_idempotent. exact Hord.
Qed.

Lemma calculateFK_rotation_constrained_witness :
  effectiveRotation (base (deriveBone limitedBone None))
    = rotation (base (deriveBone limitedBone None)).
Proof.
  apply (calculateFK_rotation_constrained 1 (heapOf limitedBone []) [0%nat]
           (heapOf limitedBone []) [deriveBone limitedBone None]
           (deriveBone limitedBone None) eq_refl (or_introl eq_refl)).
  intros limit lo hi Hl Hmin Hmax. 
  injection Hl as <-. injection Hmin as <-. injection Hmax as <-. lra.
Defined.

(** ** Chains of drivers *)

Lemma writeProp_readProp (p : BoneProp) (b : Bone) :
  writeProp p (readProp p b) b = b.
Proof. now destruct p, b. Qed.

(** One pass under an invariant [I] of the store that fixes the shape of
    the objects and the contents [c] of the source of the single driver of
    [r]: when the pass visits [r], it leaves [r] driven from [c]. *)
Lemma fold_driveBone_single (h : heap) (bones : list ref) (r s : ref)
    (d : Driver) (c : Bone) (I : heap -> Prop) :
  drivers (cells h r) = [d] ->
  findRef h bones (sourceBoneId d) = Some s ->
  (forall g, I g -> (forall r0, sameShape (cells g r0) (cells h r0)) /\
                    cells g s = c) ->
  (forall g t, I g -> I (driveBone bones g t)) ->
  forall ts g,
  I g ->
  In r ts \/ readProp (driverProperty d) (cells g r)
             = readProp (sourceProperty d) c * factor d + offset d ->
  I (fold_left (driveBone bones) ts g) /\
  readProp (driverProperty d) (cells (fold_left (driveBone bones) ts g) r)
    = readProp (sourceProperty d) c * factor d + offset d.
Proof.
  intros Hd Hs HI Hpres.
  induction ts as [|t ts IH]; intros g Hg Hq; simpl.
  - split; [exact Hg|]. destruct Hq as [[]|Hq]; exact Hq.
  - destruct (HI g Hg) as [Hsh Hsrc].
    assert (Hvisit : readProp (driverProperty d) (cells (driveBone bones g r) r)
                     = readProp (sourceProperty d) c * factor d + offset d).
    { unfold driveBone. destruct (Hsh r) as (_&_&_&_&_&_&->). rewrite Hd.
      simpl. unfold applyDriver.
      rewrite (findRef_same_ids g h) by (intros r0; apply Hsh).
      now rewrite Hs, cells_hwrite, Nat.eqb_refl, readProp_writeProp, Hsrc. }
    apply IH; [now apply Hpres|].
    destruct (Nat.eq_dec t r) as [->|Hne]; [right; exact Hvisit|].
    destruct Hq as [[->|Hin]|Hq]; [contradiction|now left|right].
    unfold driveBone. rewrite fold_applyDriver_other by congruence.
    exact Hq.
Qed.

(** X5.  Two passes resolve a chain of two drivers whatever the order of the
    array: when [rB] is driven from a bone without drivers and [rC] is
    driven from [rB], each by its only driver, both driver equations hold
    in the store that the evaluator leaves. *)
Theorem evaluateDrivers_two_links (h : heap) (bones : list ref)
    (rA rB rC : ref) (dB dC : Driver) :
  In rB bones -> In rC bones ->
  drivers (cells h rA) = [] ->
  drivers (cells h rB) = [dB] -> drivers (cells h rC) = [dC] ->
  findRef h bones (sourceBoneId dB) = Some rA ->
  findRef h bones (sourceBoneId dC) = Some rB ->
  let h' := fst (evaluateDrivers h bones) in
  readProp (driverProperty dB) (cells h' rB)
    = readProp (sourceProperty dB) (cells h rA) * factor dB + offset dB /\
  readProp (driverProperty dC) (cells h' rC)
    = readProp (sourceProperty dC) (cells h' rB) * factor dC + offset dC.
Proof.
  intros HrB HrC HdA HdB HdC HsB HsC h'.
  set (IA := fun g : heap =>
               (forall r0, sameShape (cells g r0) (cells h r0)) /\
               cells g rA = cells h rA).
  assert (IA_pres : forall g t, IA g -> IA (driveBone bones g t)).
  { intros g t [Hsh Hsrc]. split.
    - intros r0. eapply sameShape_trans; [apply driveBone_shape | apply Hsh].
    - rewrite driveBone_driverless; [exact Hsrc|].
      destruct (Hsh rA) as (_&_&_&_&_&_&->). exact HdA. }
  assert (IA0 : IA h) by (split; [intros; apply sameShape_refl|reflexivity]).
  (* first pass *)
  destruct (fold_driveBone_single h bones rB rA dB (cells h rA) IA
              HdB HsB (fun g Hg => Hg) IA_pres bones h IA0 (or_introl HrB))
    as [IA1 QB1].
  fold (driverPass bones h) in IA1, QB1. set (h1 := driverPass bones h) in *.
  (* second pass: [rB] no longer changes *)
  set (IB := fun g : heap => IA g /\ cells g rB = cells h1 rB).
  assert (IB_pres : forall g t, IB g -> IB (driveBone bones g t)).
  { intros g t [Hg HB]. split; [now apply IA_pres|].
    destruct (Nat.eq_dec t rB) as [->|Hne].
    - destruct Hg as [Hsh Hsrc]. unfold driveBone.
      destruct (Hsh rB) as (_&_&_&_&_&_&->). rewrite HdB. simpl.
      unfold applyDriver.
      rewrite (findRef_same_ids g h) by (intros r0; apply Hsh).
      rewrite HsB, cells_hwrite, Nat.eqb_refl, Hsrc, HB, <- QB1.
      apply writeProp_readProp.
    - unfold driveBone. rewrite fold_applyDriver_other by congruence.
      exact HB. }
  assert (IB1 : IB h1) by (split; [exact IA1|reflexivity]).
  destruct (fold_driveBone_single h bones rC rB dC (cells h1 rB) IB
              HdC HsC (fun g Hg => conj (proj1 (proj1 Hg)) (proj2 Hg))
              IB_pres bones h1 IB1 (or_introl HrC))
    as [[_ HB2] QC2].
  fold (driverPass bones h1) in HB2, QC2.
  change h' with (driverPass bones h1).
  rewrite HB2. split; [exact QB1 | exact QC2].
Qed.

Lemma evaluateDrivers_two_links_witness :
  readProp PRotation
    (cells (fst (evaluateDrivers linkHeap linkBones)) 1%nat)
  = readProp PRotation
      (cells (fst (evaluateDrivers linkHeap linkBones)) 2%nat) * 1 + 0.
Proof.
  apply (evaluateDrivers_two_links linkHeap linkBones 3%nat 2%nat 1%nat
           (follow "a"%string) (follow "b"%string));
    try reflexivity.
  - right. right. now left.
  - right. now left.
Defined.
